(** * Location extraction for Maltese police press releases

    A shallow embedding of [notebooks/extract_location.py] and the
    properties of its town and road extraction.

    Python [str] values are sequences of Unicode code points; they are
    modelled as lists of code points ([N]).  Literals are written as
    UTF-8 strings and decoded by [py]. *)

From Stdlib Require Import String Ascii NArith Lia.
From stdpp Require Import base list numbers option gmap sorting.

Local Open Scope N_scope.

Abbreviation char := N (only parsing).
Abbreviation str := (list N) (only parsing).

(** ** String literals *)

Definition cont (a : ascii) : N := N_of_ascii a - 128.

(** UTF-8 decoding of a literal (one to four bytes per code point). *)
Fixpoint py (s : string) : str :=
  match s with
  | EmptyString => []
  | String a r =>
    let b := N_of_ascii a in
    if b <? 128 then b :: py r
    else if b <? 224 then
      match r with
      | String a1 r1 => ((b - 192) * 64 + cont a1) :: py r1
      | _ => []
      end
    else if b <? 240 then
      match r with
      | String a1 (String a2 r2) =>
        ((b - 224) * 4096 + cont a1 * 64 + cont a2) :: py r2
      | _ => []
      end
    else
      match r with
      | String a1 (String a2 (String a3 r3)) =>
        ((b - 240) * 262144 + cont a1 * 4096 + cont a2 * 64 + cont a3) :: py r3
      | _ => []
      end
  end.

(** ** Python string primitives *)

(** [s.startswith(p)] *)
Definition startswith (s p : str) : bool := bool_decide (take (length p) s = p).

(** [s.replace(old, new)] where [old] and [new] are one code point long,
    as everywhere in this program. *)
Definition replace (old new : char) (s : str) : str :=
  map (fun c => if c =? old then new else c) s.

(** Truthiness of a string: [bool(s)]. *)
Definition truthy (s : str) : bool :=
  match s with [] => false | _ => true end.

(** ** create_town_variations *)

Definition prefixes : list str :=
  [ py "Il-"; py "L-"; py "Ħal "; py "Ħaż-"; py "Ħ'";
    py "Is-"; py "Iż-"; py "In-"; py "Ir-"; py "Ix-";
    py "Ta' "; py "Tal-"; py "Tas-" ]%string.

(** The [for prefix in prefixes: ... break] loop. *)
Fixpoint strip_loop (ps : list str) (town : str) (variations : list str)
  : list str :=
  match ps with
  | [] => variations
  | prefix :: rest =>
    if startswith town prefix then
      let base_name := drop (length prefix) town in
      if truthy base_name && negb (bool_decide (base_name ∈ variations))
      then variations ++ [base_name]
      else variations
    else strip_loop rest town variations
  end.

Definition create_town_variations (town : str) : list str :=
  let variations := [town] in
  strip_loop prefixes town variations.

(** ** Text normalizers *)

(** The code points of the mapping, in the insertion order of the dict
    literal, which is the order [mapping.items()] iterates in. *)
Definition create_ascii_mapping : list (char * char) :=
  [ (0x126, 0x48); (0x127, 0x68);   (* Ħ H, ħ h *)
    (0x120, 0x47); (0x121, 0x67);   (* Ġ G, ġ g *)
    (0x17B, 0x5A); (0x17C, 0x7A);   (* Ż Z, ż z *)
    (0x10A, 0x43); (0x10B, 0x63);   (* Ċ C, ċ c *)
    (0xC0, 0x41); (0xE0, 0x61);     (* À A, à a *)
    (0xC8, 0x45); (0xE8, 0x65);     (* È E, è e *)
    (0xCC, 0x49); (0xEC, 0x69);     (* Ì I, ì i *)
    (0xD2, 0x4F); (0xF2, 0x6F);     (* Ò O, ò o *)
    (0xD9, 0x55); (0xF9, 0x75);     (* Ù U, ù u *)
    (0x2018, 0x27);
    (0x2019, 0x27) ].

Definition to_ascii (text : str) : str :=
  fold_left (fun result '(maltese, ascii_char) =>
               replace maltese ascii_char result)
            create_ascii_mapping text.

(** What a chain of single-character replacements does to one character. *)
Definition subst_char (m : list (char * char)) (c : char) : char :=
  fold_left (fun c '(a, b) => if c =? a then b else c) m c.

Definition apostrophes : list char := [0x2018; 0x2019; 0x60; 0xB4; 0x2032].

Definition normalize_apostrophes (text : str) : str :=
  fold_left (fun text apos => replace apos 0x27 text) apostrophes text.

(** ** The alias catalog *)

(** The entries of the dict literal, in source order. *)
Definition english_alias_entries : list (str * list str) :=
  [ (py "Raħal Ġdid", [py "Paola"]);
    (py "Bormla", [py "Cospicua"]);
    (py "Il-Birgu", [py "Vittoriosa"]);
    (py "L-Isla", [py "Senglea"]);
    (py "San Pawl Il-Baħar",
       [py "St Paul's Bay"; py "St. Paul's Bay"; py "St Pauls Bay";
        py "Buġibba"; py "Bugibba"; py "Qawra";
        py "St Paul’s Bay"; py "St. Paul’s Bay"]);
    (py "L-Imtarfa", [py "Mtarfa"]);
    (py "Il-Gżira", [py "Gzira"]);
    (py "L-Imġarr", [py "Mgarr"; py "Mġarr"]);
    (py "Ħal Ghaxaq", [py "Għaxaq"; py "Ghaxaq"]);
    (py "Ir-Rabat", [py "Victoria"]);
    (py "San Ġiljan",
       [py "St Julian's"; py "St. Julian's"; py "St Julians";
        py "St. Julians"; py "St Julian’s"; py "St. Julian’s"]);
    (py "Tal-Pieta'",
       [py "Tal-Pietà"; py "Pietà"; py "Pieta"; py "Gwardamanġa";
        py "Gwardamanga"]);
    (py "Marsaskala", [py "Marsascala"]);
    (py "Ħ'Attard", [py "Attard"]);
    (py "Il-Mellieħa", [py "Mellieha"; py "Mellieħa"]);
    (py "L-Imsida", [py "Msida"]);
    (py "Is-Swieqi", [py "Swieqi"]);
    (py "Ħal Balzan", [py "Balzan"]);
    (py "Ta' Xbiex", [py "Xbiex"]) ]%string.

Definition get_english_aliases : gmap str (list str) :=
  list_to_map english_alias_entries.

(** ** list.sort(key=..., reverse=...)

    Python's sort is stable, also with [reverse=True]: elements with equal
    keys keep their relative order.  The result of a stable sort is
    determined by the input, so the sort is modelled by stable insertion
    (see [list_sort_sorted], [list_sort_perm] and [list_sort_stable]). *)

Section Sort.
Context {A : Type} (key : A -> nat) (reverse : bool).

(** [x] may stand in front of [y]. *)
Definition in_order (x y : A) : bool :=
  if reverse then (key y <=? key x)%nat else (key x <=? key y)%nat.

Fixpoint insert (x : A) (l : list A) : list A :=
  match l with
  | [] => [x]
  | y :: l' => if in_order x y then x :: l else y :: insert x l'
  end.

Definition list_sort (l : list A) : list A := foldr insert [] l.

(** The order the sort establishes between neighbours. *)
Definition ordered (x y : A) : Prop :=
  if reverse then (key y <= key x)%nat else (key x <= key y)%nat.
End Sort.

(** ** build_town_lookup *)

(** [max(len(v) for v in vs)]; it is only called on non-empty lists
    (see [all_variations_nonempty]), where Python's [max] is defined. *)
Definition max_len (vs : list str) : nat := foldr Nat.max 0%nat (map length vs).

(** The loop collecting the ASCII folds of [variations]. *)
Definition ascii_loop (variations : list str) : list str :=
  fold_left (fun ascii_variations var =>
    let ascii_var := to_ascii var in
    if bool_decide (ascii_var ≠ var)
       && negb (bool_decide (ascii_var ∈ variations))
       && negb (bool_decide (ascii_var ∈ ascii_variations))
    then ascii_variations ++ [ascii_var]
    else ascii_variations) variations [].

(** The body of the loop over the rows: the entry built for one town. *)
Definition all_variations (town : str) : list str :=
  let variations := create_town_variations town in
  let variations :=
    match get_english_aliases !! town with
    | Some aliases => variations ++ aliases
    | None => variations
    end in
  variations ++ ascii_loop variations.

(** The gazetteer is the ['Town'] column of [locations_df]. *)
Definition build_town_lookup (locations_df : list str) : list (str * list str) :=
  let lookup := map (fun town => (town, all_variations town)) locations_df in
  list_sort (fun x => max_len (snd x)) true lookup.

(** ** Python's [re] module

    The patterns of this program use literals ([re.escape]), character
    classes, [\b], [^], [$], alternation, one capturing group, and greedy
    and lazy repetition.  They are matched by backtracking, as [re] does:
    the first alternative, the longest (greedy) or shortest (lazy)
    repetition count that lets the rest of the pattern match wins, and
    [re.search] reports the match at the smallest start offset.

    Which code points beyond ASCII are alphanumeric or white space, and
    which pairs of them are equal up to case, is decided by Python's
    Unicode database; that table is a parameter of the model. *)

Record unicode_db := {
  uni_word : char -> bool;
  uni_space : char -> bool;
  uni_ieq : char -> char -> bool
}.

Inductive regex :=
| Eps
| Lit (s : str)
| Cls (p : char -> bool)
| Seq (r1 r2 : regex)
| Alt (r1 r2 : regex)
| Rep (greedy : bool) (lo : nat) (hi : option nat) (r : regex)
| Bol
| Eol
| WordB
| Grp (r : regex).

(** A successful match: start, end, and the span of group 1. *)
Record match_obj := {
  m_start : nat;
  m_end : nat;
  m_group : option (nat * nat)
}.

Definition between (lo hi c : N) : bool := (lo <=? c) && (c <=? hi).

Definition lower (c : char) : char := if between 65 90 c then c + 32 else c.

Section Regex.
Variable U : unicode_db.

(** [\w] *)
Definition is_word (c : char) : bool :=
  if c <? 128
  then between 48 57 c || between 65 90 c || between 97 122 c || (c =? 95)
  else uni_word U c.

(** [\s], and the characters removed by [str.strip()] *)
Definition is_space (c : char) : bool :=
  if c <? 128
  then between 9 13 c || between 28 32 c
  else uni_space U c.

(** Comparison of a pattern character with a subject character. *)
Definition char_eq (ignorecase : bool) (p c : char) : bool :=
  (p =? c) ||
  (ignorecase &&
   (if (p <? 128) && (c <? 128) then lower p =? lower c else uni_ieq U p c)).

Fixpoint lit_at (ignorecase : bool) (p s : str) : bool :=
  match p, s with
  | [], _ => true
  | a :: p', c :: s' => char_eq ignorecase a c && lit_at ignorecase p' s'
  | _ :: _, [] => false
  end.

(** The rounds of a repetition.  [step] matches the repeated pattern once
    and hands over to its continuation; [lo] rounds are still required and
    at most [fuel] rounds are made: the upper count of the repetition, or,
    without one, the length of the subject (see [rep_cls_fuel]).  A greedy
    repetition tries one more round before it tries to stop, a lazy one
    tries to stop first. *)
Fixpoint rep_loop {R}
    (step : nat -> option (nat * nat) ->
            (nat -> option (nat * nat) -> option R) -> option R)
    (greedy : bool) (k : nat -> option (nat * nat) -> option R)
    (fuel lo i : nat) (g : option (nat * nat)) : option R :=
  match fuel with
  | O => match lo with O => k i g | S _ => None end
  | S fuel' =>
    if greedy then
      match step i g (fun j g' => rep_loop step greedy k fuel' (pred lo) j g') with
      | Some m => Some m
      | None => match lo with O => k i g | S _ => None end
      end
    else
      match (match lo with O => k i g | S _ => None end) with
      | Some m => Some m
      | None => step i g (fun j g' => rep_loop step greedy k fuel' (pred lo) j g')
      end
  end.

Section Match.
Variable ignorecase : bool.
Variable s : str.

Definition word_at (i : nat) : bool :=
  match s !! i with Some c => is_word c | None => false end.

(** [\b] at offset [i] *)
Definition boundary (i : nat) : bool :=
  xorb (match i with O => false | S j => word_at j end) (word_at i).

(** [$] at offset [i]: the end, or just before a final newline *)
Definition at_end (i : nat) : bool :=
  bool_decide (i = length s)
  || bool_decide (S i = length s) && bool_decide (s !! i = Some 10).

Fixpoint rmatch {R} (r : regex) (i : nat) (g : option (nat * nat))
    (k : nat -> option (nat * nat) -> option R) : option R :=
  match r with
  | Eps => k i g
  | Lit p =>
    if lit_at ignorecase p (drop i s) then k (i + length p)%nat g else None
  | Cls p =>
    match s !! i with
    | Some c => if p c then k (S i) g else None
    | None => None
    end
  | Seq r1 r2 => rmatch r1 i g (fun j g' => rmatch r2 j g' k)
  | Alt r1 r2 =>
    match rmatch r1 i g k with
    | Some m => Some m
    | None => rmatch r2 i g k
    end
  | Rep greedy lo hi r1 =>
    rep_loop (rmatch r1) greedy k
      (match hi with Some h => h | None => length s end) lo i g
  | Bol => match i with O => k i g | S _ => None end
  | Eol => if at_end i then k i g else None
  | WordB => if boundary i then k i g else None
  | Grp r1 => rmatch r1 i g (fun j _ => k j (Some (i, j)))
  end.

Definition match_at (r : regex) (i : nat) : option match_obj :=
  rmatch r i None
    (fun j g => Some {| m_start := i; m_end := j; m_group := g |}).

(** Scan the start offsets [i], [i+1], ... *)
Fixpoint search_from (r : regex) (fuel i : nat) : option match_obj :=
  match match_at r i with
  | Some m => Some m
  | None =>
    match fuel with
    | O => None
    | S fuel' => search_from r fuel' (S i)
    end
  end.
End Match.

(** [re.search(pattern, s)], with or without [re.IGNORECASE] *)
Definition re_search (ignorecase : bool) (r : regex) (s : str)
  : option match_obj :=
  search_from ignorecase s r (length s) 0.

(** [s[i:j]] *)
Definition slice (s : str) (i j : nat) : str := take (j - i) (drop i s).

(** [match.group(1)]; group 1 takes part in every match of the patterns
    below. *)
Definition group1 (s : str) (m : match_obj) : str :=
  match m_group m with
  | Some (i, j) => slice s i j
  | None => []
  end.

Fixpoint lstrip (s : str) : str :=
  match s with
  | c :: s' => if is_space c then lstrip s' else s
  | [] => []
  end.

(** [s.strip()] *)
Definition strip (s : str) : str := reverse (lstrip (reverse (lstrip s))).

(** [re.sub(pattern, '', s)] for a pattern without empty matches: the
    matches, found left to right from the end of the previous one, are
    deleted. *)
Fixpoint sub_from (ignorecase : bool) (r : regex) (s : str)
    (fuel pos : nat) : str :=
  match fuel with
  | O => drop pos s
  | S fuel' =>
    match search_from ignorecase s r (length s - pos) pos with
    | Some m =>
      slice s pos (m_start m)
      ++ sub_from ignorecase r s fuel' (m_end m)
    | None => drop pos s
    end
  end.

Definition re_sub_empty (ignorecase : bool) (r : regex) (s : str) : str :=
  sub_from ignorecase r s (S (length s)) 0.

(** Pattern combinators *)
Definition cat (rs : list regex) : regex := foldr Seq Eps rs.
Definition alts (r : regex) (rs : list regex) : regex := foldl Alt r rs.
Definition plus (r : regex) : regex := Rep true 1 None r.
Definition star (r : regex) : regex := Rep true 0 None r.
Definition opt (r : regex) : regex := Rep true 0 (Some 1%nat) r.
Definition lazy_plus (r : regex) : regex := Rep false 1 None r.
Definition ws : regex := Cls is_space.
End Regex.

(** ** The town matcher *)

Section Extract.
Variable U : unicode_db.

(** [r'\b' + re.escape(normalized_variation) + r'\b'] *)
Definition town_pattern (variation : str) : regex :=
  cat [WordB; Lit (normalize_apostrophes variation); WordB].

(** The inner loop of [extract_town]: the start offset of the first
    variation, in list order, that matches; the loop stops there. *)
Fixpoint first_variation_match (normalized_content : str)
    (variations : list str) : option nat :=
  match variations with
  | [] => None
  | variation :: rest =>
    match re_search U false (town_pattern variation) normalized_content with
    | Some m => Some (m_start m)
    | None => first_variation_match normalized_content rest
    end
  end.

(** The outer loop of [extract_town], which appends to [matches]. *)
Fixpoint town_matches (normalized_content : str)
    (lookup : list (str * list str)) (matches : list (nat * str))
  : list (nat * str) :=
  match lookup with
  | [] => matches
  | (official_name, variations) :: rest =>
    match first_variation_match normalized_content variations with
    | Some start =>
      town_matches normalized_content rest (matches ++ [(start, official_name)])
    | None => town_matches normalized_content rest matches
    end
  end.

(** Content is [None] when it is Python's [None] or a NaN. *)
Definition extract_town (content : option str) (locations_df : list str)
  : option str :=
  match content with
  | None => None
  | Some content =>
    if negb (truthy content) then None
    else
      let normalized_content := normalize_apostrophes content in
      let lookup := build_town_lookup locations_df in
      let matches := town_matches normalized_content lookup [] in
      match list_sort fst false matches with
      | [] => None
      | (_, official_name) :: _ => Some official_name
      end
  end.

(** The inner loop of [extract_all_towns]: does some variation match? *)
Definition any_variation_matches (normalized_content : str)
    (variations : list str) : bool :=
  existsb (fun variation =>
    bool_decide (is_Some (re_search U false (town_pattern variation)
                                    normalized_content))) variations.

(** The outer loop of [extract_all_towns], which appends to
    [found_towns]; a town already found is skipped. *)
Fixpoint collect_towns (normalized_content : str)
    (lookup : list (str * list str)) (found_towns : list str) : list str :=
  match lookup with
  | [] => found_towns
  | (official_name, variations) :: rest =>
    if bool_decide (official_name ∈ found_towns)
    then collect_towns normalized_content rest found_towns
    else if any_variation_matches normalized_content variations
    then collect_towns normalized_content rest (found_towns ++ [official_name])
    else collect_towns normalized_content rest found_towns
  end.

Definition extract_all_towns (content : option str)
    (locations_df : list str) : list str :=
  match content with
  | None => []
  | Some content =>
    if negb (truthy content) then []
    else
      let normalized_content := normalize_apostrophes content in
      let lookup := build_town_lookup locations_df in
      collect_towns normalized_content lookup []
  end.

(** ** The road and town extractor *)

Definition maltese_prefixes : list str :=
  [ py "Triq"; py "Vjal"; py "Telgħa"; py "Telgha"; py "Sqaq"; py "Misraħ";
    py "Misrah"; py "Dawret"; py "Xatt"; py "Pjazza"; py "Piazza" ]%string.

Definition english_suffixes : list str :=
  [ py "Road"; py "Street"; py "Avenue"; py "Drive"; py "Lane"; py "Square";
    py "Wharf"; py "Seafront"; py "Hill"; py "Promenade"; py "Gardens";
    py "Place" ]%string.

(** The class [[\w']] *)
Definition word_or_apos (c : char) : bool := is_word U c || (c =? 39).
(** The class [[^,]] *)
Definition not_comma (c : char) : bool := negb (c =? 44).
(** [.] matches everything but a newline *)
Definition dot (c : char) : bool := negb (c =? 10).
(** The class of the Maltese fallback pattern: word characters, white
    space, apostrophe, backslash and hyphen *)
Definition road_char (c : char) : bool :=
  is_word U c || is_space U c || (c =? 39) || (c =? 92) || (c =? 45).

(** [(?:[\w']+\s+)] *)
Definition word_token : regex := cat [plus (Cls word_or_apos); plus (ws U)].

(** [re.sub(r'\s+(?:in|at|near|by)$', '', road, flags=re.IGNORECASE)] *)
Definition clean_trailing_preposition (road : str) : str :=
  re_sub_empty U true
    (cat [plus (ws U);
          alts (Lit (py "in")) [Lit (py "at"); Lit (py "near"); Lit (py "by")];
          Eol]) road.

(** Pattern 1:
    [r'\b(' + re.escape(prefix) + r'[^,]+),\s*' + town_escaped + r'\b'] *)
Definition pattern1 (prefix town_var : str) : regex :=
  cat [WordB; Grp (cat [Lit prefix; plus (Cls not_comma)]);
       Lit (py ","); star (ws U); Lit town_var; WordB].

(** Pattern 2:
    [(?:^|in\s+|at\s+|along\s+(?:the\s+)?)((?:[\w']+\s+){0,4}SUFFIX),\s*TOWN\b] *)
Definition pattern2 (suffix town_var : str) : regex :=
  cat [alts Bol
         [cat [Lit (py "in"); plus (ws U)];
          cat [Lit (py "at"); plus (ws U)];
          cat [Lit (py "along"); plus (ws U);
               opt (cat [Lit (py "the"); plus (ws U)])]];
       Grp (cat [Rep true 0 (Some 4%nat) word_token; Lit suffix]);
       Lit (py ","); star (ws U); Lit town_var; WordB].

(** Pattern 3: [along\s+(?:the\s+)?(.+?),?\s+in\s+TOWN\b] *)
Definition pattern3 (town_var : str) : regex :=
  cat [Lit (py "along"); plus (ws U);
       opt (cat [Lit (py "the"); plus (ws U)]);
       Grp (lazy_plus (Cls dot)); opt (Lit (py ","));
       plus (ws U); Lit (py "in"); plus (ws U); Lit town_var; WordB].

(** Fallback, Maltese style: [\b(PREFIX\s+[...]+?)(?:,|\.|\s+corner)]
    with the class [road_char] *)
Definition road_pattern_maltese (prefix : str) : regex :=
  cat [WordB;
       Grp (cat [Lit prefix; plus (ws U); lazy_plus (Cls road_char)]);
       alts (Lit (py ",")) [Lit (py "."); cat [plus (ws U); Lit (py "corner")]]].

(** Fallback, English style: [\b((?:[\w']+\s+){1,4}SUFFIX)\b] *)
Definition road_pattern_english (suffix : str) : regex :=
  cat [WordB; Grp (cat [Rep true 1 (Some 4%nat) word_token; Lit suffix]);
       WordB].

(** A [for x in l: ... if match: return ...] loop: the result of the
    first iteration that returns. *)
Fixpoint first_return {A B} (f : A -> option B) (l : list A) : option B :=
  match l with
  | [] => None
  | x :: l' =>
    match f x with
    | Some r => Some r
    | None => first_return f l'
    end
  end.

(** The list [all_town_variations], sorted by length, longest first. *)
Definition all_town_variations (lookup : list (str * list str))
  : list (str * str) :=
  let all :=
    flat_map (fun '(official_name, variations) =>
      map (fun var => (normalize_apostrophes var, official_name)) variations)
      lookup in
  list_sort (fun x => length (fst x)) true all.

(** The body of the loop over [all_town_variations]: the three patterns
    tried for one town variation. *)
Definition cascade (normalized_content : str) (cand : str * str)
  : option (option str * option str) :=
  let '(town_var, official_town) := cand in
  match first_return (fun prefix =>
          match re_search U false (pattern1 prefix town_var)
                          normalized_content with
          | Some m =>
            let road := strip U (group1 normalized_content m) in
            let road := clean_trailing_preposition road in
            Some (Some road, Some official_town)
          | None => None
          end) maltese_prefixes with
  | Some r => Some r
  | None =>
    match first_return (fun suffix =>
            match re_search U true (pattern2 suffix town_var)
                            normalized_content with
            | Some m =>
              Some (Some (strip U (group1 normalized_content m)),
                    Some official_town)
            | None => None
            end) english_suffixes with
    | Some r => Some r
    | None =>
      match re_search U true (pattern3 town_var) normalized_content with
      | Some m =>
        Some (Some (strip U (group1 normalized_content m)),
              Some official_town)
      | None => None
      end
    end
  end.

Definition extract_road_and_town (content : option str)
    (locations_df : list str) : option str * option str :=
  match content with
  | None => (None, None)
  | Some text =>
    if negb (truthy text) then (None, None)
    else
      let normalized_content := normalize_apostrophes text in
      let lookup := build_town_lookup locations_df in
      match first_return (cascade normalized_content)
                         (all_town_variations lookup) with
      | Some r => r
      | None =>
        let town := extract_town content locations_df in
        match first_return (fun prefix =>
                match re_search U false (road_pattern_maltese prefix)
                                normalized_content with
                | Some m =>
                  let road := strip U (group1 normalized_content m) in
                  Some (clean_trailing_preposition road)
                | None => None
                end) maltese_prefixes with
        | Some road => (Some road, town)
        | None =>
          match first_return (fun suffix =>
                  match re_search U false (road_pattern_english suffix)
                                  normalized_content with
                  | Some m => Some (strip U (group1 normalized_content m))
                  | None => None
                  end) english_suffixes with
          | Some road => (Some road, town)
          | None => (None, town)
          end
        end
      end
  end.

(** [extract_location] is an alias. *)
Definition extract_location := extract_road_and_town.
End Extract.

(** ** The town matcher as the specification words it

    The specification reads [extract_town] as: search every variant of
    every town, and return the town that owns the match at the smallest
    offset.  [extract_town_spec] follows these words; it is compared with
    [extract_town] below. *)

Section Reference.
Variable U : unicode_db.

(** Every matching variant of every town, with its offset. *)
Definition variant_matches (normalized_content : str)
    (lookup : list (str * list str)) : list (nat * str) :=
  flat_map (fun '(official_name, variations) =>
    omap (fun variation =>
      match re_search U false (town_pattern variation)
                      normalized_content with
      | Some m => Some (m_start m, official_name)
      | None => None
      end) variations) lookup.

Definition extract_town_spec (content : option str)
    (locations_df : list str) : option str :=
  match content with
  | None => None
  | Some content =>
    if negb (truthy content) then None
    else
      let normalized_content := normalize_apostrophes content in
      let lookup := build_town_lookup locations_df in
      match list_sort fst false (variant_matches normalized_content lookup) with
      | [] => None
      | (_, official_name) :: _ => Some official_name
      end
  end.
End Reference.

(** ** Whole-word occurrences *)

(** What the pattern [r'\b' + re.escape(w) + r'\b'] asks of an offset [o]
    of [s]: [w] stands there, between two word boundaries. *)
Definition whole_word_at (U : unicode_db) (s w : str) (o : nat) : Prop :=
  boundary U s o = true /\
  take (length w) (drop o s) = w /\
  boundary U s (o + length w) = true.

(** ** A Unicode table for the examples

    Python's table for the code points below U+0180: Latin-1 Supplement
    and Latin Extended-A, where the Maltese letters lie.  From U+0180 on
    the table of the examples takes a code point as neither alphanumeric
    nor white space, and as equal up to case to itself only; the examples
    do not go there. *)

(** One representative for the code points below U+0180 that
    [re.IGNORECASE] takes as equal: the lower-case letter, with the dotted
    and dotless i on ASCII i and the long s on ASCII s. *)
Definition case_key (c : char) : char :=
  if c <? 128 then lower c
  else if (c =? 0x130) || (c =? 0x131) then 0x69
  else if c =? 0x17F then 0x73
  else if c =? 0x178 then 0xFF
  else if between 0xC0 0xDE c && negb (c =? 0xD7) then c + 32
  else if (between 0x100 0x12F c || between 0x132 0x137 c
           || between 0x14A 0x177 c) && N.even c then c + 1
  else if (between 0x139 0x148 c || between 0x179 0x17E c) && N.odd c
  then c + 1
  else c.

Definition latin_db : unicode_db :=
  {| uni_word := fun c =>
       (between 0xC0 0x17F c && negb (c =? 0xD7) && negb (c =? 0xF7))
       || (c =? 0xAA) || between 0xB2 0xB3 c || (c =? 0xB5)
       || between 0xB9 0xBA c || between 0xBC 0xBE c;
     uni_space := fun c => (c =? 0x85) || (c =? 0xA0);
     uni_ieq := fun p c =>
       if (p <? 0x180) && (c <? 0x180) then case_key p =? case_key c
       else p =? c |}.

(** * Properties *)

(** ** The literals of the model are the literals of the source *)

Example mapping_literals :
  map (fun '(k, v) => ([k], [v])) create_ascii_mapping =
  [ (py "Ħ", py "H"); (py "ħ", py "h"); (py "Ġ", py "G"); (py "ġ", py "g");
    (py "Ż", py "Z"); (py "ż", py "z"); (py "Ċ", py "C"); (py "ċ", py "c");
    (py "À", py "A"); (py "à", py "a"); (py "È", py "E"); (py "è", py "e");
    (py "Ì", py "I"); (py "ì", py "i"); (py "Ò", py "O"); (py "ò", py "o");
    (py "Ù", py "U"); (py "ù", py "u");
    (py "‘", py "'"); (py "’", py "'") ]%string.
Proof. vm_compute. reflexivity. Qed.

Example apostrophe_literals :
  map (fun c => [c]) apostrophes =
  [ py "‘"; py "’"; py "`"; py "´"; py "′" ]%string.
Proof. vm_compute. reflexivity. Qed.

Example variations_imsida :
  create_town_variations (py "L-Imsida") = [py "L-Imsida"; py "Imsida"]%string.
Proof. vm_compute. reflexivity. Qed.

Example lookup_imgarr :
  build_town_lookup [py "Mġarr"; py "L-Imġarr"; py "Tal-Pieta'"]%string =
  [ (py "Tal-Pieta'",
      [py "Tal-Pieta'"; py "Pieta'"; py "Tal-Pietà"; py "Pietà"; py "Pieta";
       py "Gwardamanġa"; py "Gwardamanga"; py "Tal-Pieta"]);
    (py "L-Imġarr",
      [py "L-Imġarr"; py "Imġarr"; py "Mgarr"; py "Mġarr"; py "L-Imgarr";
       py "Imgarr"]);
    (py "Mġarr", [py "Mġarr"; py "Mgarr"]) ]%string.
Proof. vm_compute. reflexivity. Qed.

(** Entries of the table of the examples: the micro sign is alphanumeric,
    the multiplication sign is not, U+0085 is white space, and the Maltese
    capital and small g with dot are equal up to case. *)
Example latin_db_entries :
  is_word latin_db 0xB5 = true /\ is_word latin_db 0xD7 = false /\
  is_space latin_db 0x85 = true /\
  char_eq latin_db true 0x120 0x121 = true /\
  char_eq latin_db false 0x120 0x121 = false.
Proof. repeat split. Qed.

(** Only one prefix is stripped, the first of the list that matches. *)
Example variations_single_strip :
  create_town_variations (py "Tal-Il-Kbir") = [py "Tal-Il-Kbir"; py "Il-Kbir"].
Proof. vm_compute. reflexivity. Qed.

Example english_alias_keys_distinct : NoDup (fst <$> english_alias_entries).
Proof. apply (bool_decide_unpack _). vm_compute. exact I. Qed.

(** ** Stable sorting *)

Section SortFacts.
Context {A : Type} (key : A -> nat) (reverse : bool).

Lemma in_order_true x y : in_order key reverse x y = true <-> ordered key reverse x y.
Proof.
  unfold in_order, ordered. destruct reverse; apply Nat.leb_le.
Qed.

Lemma in_order_false x y : in_order key reverse x y = false -> ordered key reverse y x.
Proof.
  unfold in_order, ordered. destruct reverse; intros H%Nat.leb_gt; lia.
Qed.

#[local] Instance ordered_trans : Transitive (ordered key reverse).
Proof. unfold ordered. intros x y z. destruct reverse; lia. Qed.

Lemma insert_perm x l : insert key reverse x l ≡ₚ x :: l.
Proof.
  induction l as [|y l IH]; simpl; [done|].
  destruct (in_order key reverse x y); [done|].
  rewrite IH. apply Permutation_swap.
Qed.

Lemma list_sort_perm l : list_sort key reverse l ≡ₚ l.
Proof.
  induction l as [|x l IH]; simpl; [done|].
  rewrite insert_perm. by rewrite IH.
Qed.

Lemma insert_hd_rel x y l :
  ordered key reverse y x -> HdRel (ordered key reverse) y l -> HdRel (ordered key reverse) y (insert key reverse x l).
Proof.
  intros Hyx Hl. destruct l as [|z l]; simpl; [by constructor|].
  destruct (in_order key reverse x z); constructor; [done|].
  by inversion Hl.
Qed.

Lemma insert_sorted x l :
  Sorted (ordered key reverse) l -> Sorted (ordered key reverse) (insert key reverse x l).
Proof.
  induction 1 as [|y l Hs IH Hhd]; simpl; [by repeat constructor|].
  destruct (in_order key reverse x y) eqn:E.
  - constructor; [by constructor|]. constructor. by apply in_order_true.
  - constructor; [done|]. apply insert_hd_rel; [|done].
    by apply in_order_false.
Qed.

Lemma list_sort_sorted l : Sorted (ordered key reverse) (list_sort key reverse l).
Proof.
  induction l as [|x l IH]; simpl; [constructor|]. by apply insert_sorted.
Qed.

(** Neighbours of a sorted list, by index. *)
Lemma sorted_adjacent l i x y :
  Sorted (ordered key reverse) l -> l !! i = Some x -> l !! S i = Some y -> ordered key reverse x y.
Proof.
  intros Hs. revert i. induction Hs as [|z l Hs IH Hhd]; intros i Hx Hy.
  - done.
  - destruct i as [|i]; simpl in *.
    + injection Hx as ->. destruct l as [|w l]; [done|].
      simpl in Hy. injection Hy as ->. by inversion Hhd.
    + by eapply IH.
Qed.

(** The head of a sorted list is in front of every element. *)
Lemma sorted_head x l y :
  Sorted (ordered key reverse) (x :: l) -> y ∈ x :: l -> ordered key reverse x y.
Proof.
  intros Hs%Sorted_StronglySorted; [|apply ordered_trans].
  intros [->|Hin]%elem_of_cons.
  - unfold ordered. destruct reverse; lia.
  - apply StronglySorted_inv in Hs as [_ Hall].
    rewrite Forall_forall in Hall. by apply Hall.
Qed.
Lemma in_order_false_ne x y : in_order key reverse x y = false -> key x <> key y.
Proof.
  unfold in_order. destruct reverse; intros H%Nat.leb_gt; lia.
Qed.

Lemma insert_stable k x l :
  filter (fun y => key y = k) (insert key reverse x l)
  = filter (fun y => key y = k) (x :: l).
Proof.
  induction l as [|y l IH]; simpl; [done|].
  destruct (in_order key reverse x y) eqn:E; [done|].
  apply in_order_false_ne in E.
  rewrite (filter_cons _ y), IH, !filter_cons.
  repeat case_decide; congruence.
Qed.

(** The sort is stable: the elements of any one key keep their order. *)
Lemma list_sort_stable k l :
  filter (fun y => key y = k) (list_sort key reverse l)
  = filter (fun y => key y = k) l.
Proof.
  induction l as [|x l IH]; simpl; [done|].
  rewrite insert_stable, !filter_cons. by rewrite IH.
Qed.
End SortFacts.

(** ** The fuel of the repetition loop *)

Section RegexFacts.
Variable U : unicode_db.
Variable ignorecase : bool.
Variable s : str.

(** One more round of fuel changes nothing once the fuel covers the rest
    of the subject, when a round consumes at least one character. *)
Lemma rep_loop_more_fuel {R}
    (step : nat -> option (nat * nat) ->
            (nat -> option (nat * nat) -> option R) -> option R)
    greedy k n lo i g :
  (forall i g k1 k2,
     (forall j g', (i < j <= length s)%nat -> k1 j g' = k2 j g') ->
     step i g k1 = step i g k2) ->
  (forall i g, step i g (fun _ _ => None) = None) ->
  (length s - i <= n)%nat ->
  rep_loop step greedy k (S n) lo i g = rep_loop step greedy k n lo i g.
Proof.
  intros Hstep Hnone. revert lo i g.
  induction n as [|n IH]; intros lo i g Hn.
  - cbn [rep_loop].
    rewrite (Hstep i g _ (fun _ _ => None)) by (intros; lia).
    rewrite Hnone. destruct greedy; [done|]. by destruct lo; [destruct (k i g)|].
  - change (rep_loop step greedy k (S (S n)) lo i g) with
      (if greedy then
         match step i g (fun j g' => rep_loop step greedy k (S n) (pred lo) j g') with
         | Some m => Some m
         | None => match lo with O => k i g | S _ => None end
         end
       else
         match (match lo with O => k i g | S _ => None end) with
         | Some m => Some m
         | None => step i g (fun j g' => rep_loop step greedy k (S n) (pred lo) j g')
         end).
    rewrite (Hstep i g _ (fun j g' => rep_loop step greedy k n (pred lo) j g')).
    + reflexivity.
    + intros j g' Hj. apply IH. lia.
Qed.

Lemma rep_loop_fuel {R}
    (step : nat -> option (nat * nat) ->
            (nat -> option (nat * nat) -> option R) -> option R)
    greedy k n lo i g :
  (forall i g k1 k2,
     (forall j g', (i < j <= length s)%nat -> k1 j g' = k2 j g') ->
     step i g k1 = step i g k2) ->
  (forall i g, step i g (fun _ _ => None) = None) ->
  (length s <= n)%nat ->
  rep_loop step greedy k n lo i g = rep_loop step greedy k (length s) lo i g.
Proof.
  intros Hstep Hnone Hn. replace n with ((n - length s) + length s)%nat by lia.
  induction (n - length s)%nat as [|d IH]; [done|].
  rewrite <- IH. apply rep_loop_more_fuel; [done|done|lia].
Qed.

(** Unbounded repetition of a character class is repetition bounded by
    any number not below the length of the subject: the fuel of the model
    never cuts a repetition short. *)
Lemma rep_cls_fuel {R} p greedy (k : nat -> option (nat * nat) -> option R)
    n lo i g :
  (length s <= n)%nat ->
  rmatch U ignorecase s (Rep greedy lo (Some n) (Cls p)) i g k
  = rmatch U ignorecase s (Rep greedy lo None (Cls p)) i g k.
Proof.
  intros Hn. cbn [rmatch]. apply rep_loop_fuel; [| |done].
  - intros i' g' k1 k2 Hk. destruct (s !! i') as [c|] eqn:Hc; [|done].
    destruct (p c); [|done]. apply Hk. apply lookup_lt_Some in Hc. lia.
  - intros i' g'. destruct (s !! i'); [|done]. by destruct (p _).
Qed.
End RegexFacts.

(** ** The variant generator *)

Lemma startswith_length (s p : str) :
  startswith s p = true -> (length p <= length s)%nat.
Proof.
  unfold startswith. intros H%bool_decide_eq_true.
  rewrite <- H at 1. rewrite length_take. lia.
Qed.

Lemma prefixes_nonempty p : p ∈ prefixes -> (0 < length p)%nat.
Proof.
  intros Hp. assert (Forall (fun p : str => (0 < length p)%nat) prefixes) as H.
  { unfold prefixes. repeat constructor. }
  rewrite Forall_forall in H. by apply H.
Qed.

(** The loop stops at the first prefix the town starts with. *)
Lemma strip_loop_find ps town variations :
  strip_loop ps town variations =
  match List.find (startswith town) ps with
  | Some p =>
    let base_name := drop (length p) town in
    if truthy base_name && negb (bool_decide (base_name ∈ variations))
    then variations ++ [base_name] else variations
  | None => variations
  end.
Proof.
  induction ps as [|p ps IH]; simpl; [done|].
  by destruct (startswith town p).
Qed.

Lemma strip_loop_incl ps town variations v :
  v ∈ variations -> v ∈ strip_loop ps town variations.
Proof.
  rewrite strip_loop_find. intros Hv.
  destruct (List.find _ ps); [|done]. simpl.
  destruct (_ && _); [|done]. apply elem_of_app. by left.
Qed.

Lemma create_town_variations_town town : town ∈ create_town_variations town.
Proof.
  unfold create_town_variations. apply strip_loop_incl.
  apply elem_of_cons. by left.
Qed.

(** C4: for every town name, the list built by create_town_variations
    contains the town name itself, so the list is never empty. *)
Theorem create_town_variations_contains_town (town : str) :
  town ∈ create_town_variations town /\ create_town_variations town <> [].
Proof.
  pose proof (create_town_variations_town town) as H.
  split; [done|]. intros E. rewrite E in H. by apply elem_of_nil in H.
Qed.

(** C5 (as amended): the variant list is the town name, followed by the
    town name without the first prefix of the list that it starts with,
    when there is such a prefix and the remainder is not empty; nothing else
    is added, so no other prefix and no second prefix is ever stripped. *)
Theorem create_town_variations_first_prefix (town : str) :
  create_town_variations town =
  match List.find (startswith town) prefixes with
  | Some p =>
    if truthy (drop (length p) town) then [town; drop (length p) town]
    else [town]
  | None => [town]
  end.
Proof.
  unfold create_town_variations. rewrite strip_loop_find.
  destruct (List.find (startswith town) prefixes) as [p|] eqn:E; [|done].
  apply List.find_some in E as [Hin Hsw]. simpl.
  destruct (truthy (drop (length p) town)); [|done]. simpl.
  rewrite bool_decide_eq_false_2; [done|].
  intros Hd%list_elem_of_singleton.
  apply (f_equal length) in Hd. rewrite length_drop in Hd.
  apply startswith_length in Hsw.
  apply list_elem_of_In, prefixes_nonempty in Hin. lia.
Qed.

(** C5, the claim as stated fails: a town name that is exactly a prefix
    starts with that prefix, but the empty remainder is not a variant. *)
Lemma create_town_variations_empty_remainder :
  List.find (startswith (py "Il-")) prefixes = Some (py "Il-") /\
  drop (length (py "Il-")) (py "Il-") ∉ create_town_variations (py "Il-").
Proof.
  split; [vm_compute; reflexivity|].
  intros H. vm_compute in H. apply list_elem_of_singleton in H. discriminate H.
Qed.

(** ** The normalizers *)

Lemma replace_chain_map m (s : str) :
  fold_left (fun result '(a, b) => replace a b result) m s
  = map (subst_char m) s.
Proof.
  revert s. induction m as [|[a b] m IH]; intros s; simpl.
  - by rewrite map_id.
  - rewrite IH. unfold replace. by rewrite map_map.
Qed.

Lemma subst_char_fresh m c : c ∉ fst <$> m -> subst_char m c = c.
Proof.
  induction m as [|[a b] m IH]; simpl; [done|].
  intros Hc. apply not_elem_of_cons in Hc as [Hne Hc].
  destruct (N.eqb_spec c a) as [->|_]; [done|]. by apply IH.
Qed.

Lemma subst_char_cases m c :
  Forall (fun v => v ∉ fst <$> m) (snd <$> m) ->
  subst_char m c = c \/ subst_char m c ∈ snd <$> m.
Proof.
  revert c. induction m as [|[a b] m IH]; intros c H; simpl; [by left|].
  simpl in H. apply Forall_cons in H as [Hb Hm].
  apply not_elem_of_cons in Hb as [_ Hb].
  assert (Forall (fun v => v ∉ fst <$> m) (snd <$> m)) as Hm'.
  { eapply Forall_impl; [exact Hm|]. intros v Hv.
    by apply not_elem_of_cons in Hv as [_ Hv]. }
  destruct (N.eqb_spec c a) as [->|Hne].
  - right. rewrite subst_char_fresh by done. apply elem_of_cons. by left.
  - destruct (IH c Hm') as [E|Hin]; [by left|].
    right. apply elem_of_cons. by right.
Qed.

(** No replacement character is itself replaced: the chain is idempotent. *)
Lemma subst_char_idem m c :
  Forall (fun v => v ∉ fst <$> m) (snd <$> m) ->
  subst_char m (subst_char m c) = subst_char m c.
Proof.
  intros H. destruct (subst_char_cases m c H) as [E|Hin].
  - by rewrite !E.
  - apply subst_char_fresh. rewrite Forall_forall in H. by apply H.
Qed.

Lemma to_ascii_map text :
  to_ascii text = map (subst_char create_ascii_mapping) text.
Proof. apply replace_chain_map. Qed.

Lemma normalize_apostrophes_map text :
  normalize_apostrophes text
  = map (subst_char (map (fun a => (a, 0x27)) apostrophes)) text.
Proof. rewrite <- replace_chain_map. reflexivity. Qed.

Lemma ascii_mapping_targets_fresh :
  Forall (fun v => v ∉ fst <$> create_ascii_mapping) (snd <$> create_ascii_mapping).
Proof. apply (bool_decide_unpack _). vm_compute. exact I. Qed.

Lemma apostrophe_target_fresh :
  let m := map (fun a => (a, 0x27)) apostrophes in
  Forall (fun v => v ∉ fst <$> m) (snd <$> m).
Proof. intros m. apply (bool_decide_unpack _). vm_compute. exact I. Qed.

(** C7: both normalizers are idempotent on every string. *)
Theorem normalizers_idempotent (x : str) :
  to_ascii (to_ascii x) = to_ascii x /\
  normalize_apostrophes (normalize_apostrophes x) = normalize_apostrophes x.
Proof.
  split.
  - rewrite !to_ascii_map, map_map. apply map_ext. intros c.
    apply subst_char_idem, ascii_mapping_targets_fresh.
  - rewrite !normalize_apostrophes_map, map_map. apply map_ext. intros c.
    apply subst_char_idem, apostrophe_target_fresh.
Qed.

(** ** The town lookup index *)

Lemma max_len_ge vs (v : str) : v ∈ vs -> (length v <= max_len vs)%nat.
Proof.
  unfold max_len. induction vs as [|w vs IH]; simpl.
  - by intros ?%elem_of_nil.
  - intros [->|Hin]%elem_of_cons; [lia|]. specialize (IH Hin). lia.
Qed.

Lemma max_len_attained vs :
  vs <> [] -> exists v : str, v ∈ vs /\ length v = max_len vs.
Proof.
  unfold max_len. induction vs as [|w vs IH]; [done|]. intros _. simpl.
  destruct vs as [|w' vs].
  - exists w. split; [apply elem_of_cons; by left|]. simpl. lia.
  - destruct IH as (v & Hin & Hlen); [done|].
    destruct (Nat.max_spec (length w) (foldr Nat.max 0%nat (map length (w' :: vs))))
      as [[_ E]|[_ E]]; rewrite E.
    + exists v. split; [apply elem_of_cons; by right|done].
    + exists w. split; [apply elem_of_cons; by left|done].
Qed.

(** Every entry holds at least its own town, so the sort key is defined. *)
Lemma all_variations_contains_town town : town ∈ all_variations town.
Proof.
  unfold all_variations. apply elem_of_app. left.
  pose proof (create_town_variations_town town) as H.
  destruct (get_english_aliases !! town); [|done].
  apply elem_of_app. by left.
Qed.

Lemma all_variations_nonempty town : all_variations town <> [].
Proof.
  intros E. pose proof (all_variations_contains_town town) as H.
  rewrite E in H. by apply elem_of_nil in H.
Qed.

(** The index is a rearrangement of the entries built row by row. *)
Lemma build_town_lookup_perm g :
  build_town_lookup g ≡ₚ map (fun town => (town, all_variations town)) g.
Proof. unfold build_town_lookup. apply list_sort_perm. Qed.

Lemma build_town_lookup_names g : fst <$> build_town_lookup g ≡ₚ g.
Proof.
  rewrite build_town_lookup_perm.
  rewrite <- list_fmap_compose. simpl.
  induction g as [|t g IH]; simpl; [done|]. by rewrite IH.
Qed.

Lemma build_town_lookup_entry g t vs :
  (t, vs) ∈ build_town_lookup g -> t ∈ g /\ vs = all_variations t.
Proof.
  rewrite build_town_lookup_perm.
  intros (t' & E & Hin)%list_elem_of_fmap. by injection E as -> ->.
Qed.

(** C6: in the index built by build_town_lookup, of two adjacent entries
    the earlier one has a longest variant at least as long as the later
    one's: the index is in descending order of the longest variant. *)
Theorem build_town_lookup_descending (g : list str) (i : nat)
    (e1 e2 : str * list str) :
  build_town_lookup g !! i = Some e1 ->
  build_town_lookup g !! S i = Some e2 ->
  (max_len (snd e2) <= max_len (snd e1))%nat.
Proof.
  intros H1 H2.
  pose proof (list_sort_sorted (fun x : str * list str => max_len (snd x)) true
                (map (fun town => (town, all_variations town)) g)) as Hs.
  exact (sorted_adjacent _ true _ i e1 e2 Hs H1 H2).
Qed.

Lemma build_town_lookup_descending_witness :
  build_town_lookup [py "Bormla"; py "Il-Birgu"] !! 0%nat
    = Some (py "Il-Birgu", [py "Il-Birgu"; py "Birgu"; py "Vittoriosa"]) /\
  build_town_lookup [py "Bormla"; py "Il-Birgu"] !! 1%nat
    = Some (py "Bormla", [py "Bormla"; py "Cospicua"]) /\
  (max_len (snd (py "Bormla", [py "Bormla"; py "Cospicua"]))
   <= max_len (snd (py "Il-Birgu", [py "Il-Birgu"; py "Birgu"; py "Vittoriosa"])))%nat.
Proof.
  split; [vm_compute; reflexivity|]. split; [vm_compute; reflexivity|].
  apply (build_town_lookup_descending [py "Bormla"; py "Il-Birgu"] 0);
    vm_compute; reflexivity.
Defined.

(** C9 (as amended): for a gazetteer of distinct town names the index has
    exactly one entry per town, and the variant set of an entry is the one
    generated from its own town, which it contains.  Nothing relates the
    variant sets of two different towns. *)
Theorem build_town_lookup_one_entry_per_town (g : list str) :
  NoDup g ->
  NoDup (fst <$> build_town_lookup g) /\
  fst <$> build_town_lookup g ≡ₚ g /\
  forall t vs, (t, vs) ∈ build_town_lookup g ->
    t ∈ g /\ vs = all_variations t /\ t ∈ vs.
Proof.
  intros Hnd. split; [|split].
  - by rewrite build_town_lookup_names.
  - apply build_town_lookup_names.
  - intros t vs [Hin ->]%build_town_lookup_entry.
    split; [done|]. split; [done|]. apply all_variations_contains_town.
Qed.

Lemma build_town_lookup_one_entry_per_town_witness :
  NoDup [py "L-Imġarr"; py "Mġarr"] /\
  NoDup (fst <$> build_town_lookup [py "L-Imġarr"; py "Mġarr"]) /\
  fst <$> build_town_lookup [py "L-Imġarr"; py "Mġarr"]
    ≡ₚ [py "L-Imġarr"; py "Mġarr"] /\
  forall t vs, (t, vs) ∈ build_town_lookup [py "L-Imġarr"; py "Mġarr"] ->
    t ∈ [py "L-Imġarr"; py "Mġarr"] /\ vs = all_variations t /\ t ∈ vs.
Proof.
  assert (NoDup [py "L-Imġarr"; py "Mġarr"]) as Hnd.
  { apply (bool_decide_unpack _). vm_compute. exact I. }
  split; [exact Hnd|].
  exact (build_town_lookup_one_entry_per_town [py "L-Imġarr"; py "Mġarr"] Hnd).
Defined.

(** C9, the claim as stated fails: in the index of the gazetteer of the two
    distinct towns L-Imġarr and Mġarr, the variant Mġarr belongs to the
    variant sets of both. *)
Lemma build_town_lookup_shared_variant :
  NoDup [py "L-Imġarr"; py "Mġarr"] /\
  exists vs1 vs2,
    (py "L-Imġarr", vs1) ∈ build_town_lookup [py "L-Imġarr"; py "Mġarr"] /\
    (py "Mġarr", vs2) ∈ build_town_lookup [py "L-Imġarr"; py "Mġarr"] /\
    py "L-Imġarr" <> py "Mġarr" /\
    py "Mġarr" ∈ vs1 /\ py "Mġarr" ∈ vs2.
Proof.
  split; [apply (bool_decide_unpack _); vm_compute; exact I|].
  exists (all_variations (py "L-Imġarr")), (all_variations (py "Mġarr")).
  repeat split; try (apply (bool_decide_unpack _); vm_compute; exact I).
Qed.

(** The towns of the alias catalog themselves have pairwise disjoint
    variant sets. *)
Lemma alias_catalog_towns_unambiguous :
  let g := fst <$> english_alias_entries in
  forall e1 e2, e1 ∈ build_town_lookup g -> e2 ∈ build_town_lookup g ->
    forall v, v ∈ snd e1 -> v ∈ snd e2 -> fst e1 = fst e2.
Proof.
  intros g.
  assert (Forall (fun e1 => Forall (fun e2 =>
            Forall (fun v => v ∈ snd e2 -> fst e1 = fst e2) (snd e1))
            (build_town_lookup g)) (build_town_lookup g)) as H.
  { apply (bool_decide_unpack _). vm_compute. exact I. }
  intros e1 e2 H1 H2 v Hv1 Hv2.
  rewrite Forall_forall in H. specialize (H e1 H1).
  rewrite Forall_forall in H. specialize (H e2 H2).
  rewrite Forall_forall in H. by apply (H v).
Qed.

(** ** The town matcher *)

Section MatcherFacts.
Variable U : unicode_db.

(** Every recorded match names a town of the index. *)
Lemma town_matches_names nc lookup matches (o : nat) (t : str) :
  (o, t) ∈ town_matches U nc lookup matches ->
  (o, t) ∈ matches \/ t ∈ fst <$> lookup.
Proof.
  revert matches. induction lookup as [|[name vs] lookup IH]; intros matches.
  - simpl. by left.
  - simpl. destruct (first_variation_match U nc vs) as [start|].
    + intros [[Hin|Hin%list_elem_of_singleton]%elem_of_app|Hin]%IH.
      * by left.
      * injection Hin as -> ->. right. apply elem_of_cons. by left.
      * right. apply elem_of_cons. by right.
    + intros [Hin|Hin]%IH; [by left|]. right. apply elem_of_cons. by right.
Qed.

Lemma NoDup_append_new (found : list str) name :
  NoDup found -> name ∉ found -> NoDup (found ++ [name]).
Proof.
  intros Hnd Hnew. apply NoDup_app. repeat split; [done| |apply NoDup_singleton].
  by intros x Hx ->%list_elem_of_singleton.
Qed.

(** The towns found are appended to the ones found before, without
    repetition and in the order of the index. *)
Lemma collect_towns_extends nc lookup found :
  NoDup found ->
  exists extra,
    collect_towns U nc lookup found = found ++ extra /\
    NoDup (found ++ extra) /\
    extra `sublist_of` (fst <$> lookup).
Proof.
  revert found. induction lookup as [|[name vs] lookup IH]; intros found Hnd.
  - exists []. simpl. rewrite app_nil_r. repeat split; [done|constructor].
  - simpl. destruct (bool_decide (name ∈ found)) eqn:Hmem.
    + destruct (IH found Hnd) as (extra & E & Hnd' & Hsub).
      exists extra. repeat split; [done|done|by apply sublist_cons].
    + apply bool_decide_eq_false in Hmem.
      destruct (any_variation_matches U nc vs).
      * destruct (IH (found ++ [name]) (NoDup_append_new _ _ Hnd Hmem))
          as (extra & E & Hnd' & Hsub).
        exists (name :: extra). rewrite E, <- !app_assoc. simpl.
        rewrite <- app_assoc in Hnd'. simpl in Hnd'.
        repeat split; [done|by apply sublist_skip].
      * destruct (IH found Hnd) as (extra & E & Hnd' & Hsub).
        exists extra. repeat split; [done|done|by apply sublist_cons].
Qed.

(** Every town of the index with a matching variation is collected. *)
Lemma collect_towns_complete nc lookup found t vs :
  NoDup found ->
  (t, vs) ∈ lookup -> any_variation_matches U nc vs = true ->
  t ∈ collect_towns U nc lookup found.
Proof.
  revert found. induction lookup as [|[name ws] lookup IH]; intros found Hnd.
  - by intros ?%elem_of_nil.
  - intros [[= <- <-]|Hin]%elem_of_cons Hm; simpl.
    + destruct (bool_decide (t ∈ found)) eqn:Hmem.
      * apply bool_decide_eq_true in Hmem.
        destruct (collect_towns_extends nc lookup found Hnd) as (extra & -> & _).
        apply elem_of_app. by left.
      * apply bool_decide_eq_false in Hmem. rewrite Hm.
        destruct (collect_towns_extends nc lookup _
                    (NoDup_append_new _ _ Hnd Hmem)) as (extra & -> & _).
        rewrite <- app_assoc. apply elem_of_app. right.
        apply elem_of_cons. by left.
    + destruct (bool_decide (name ∈ found)) eqn:Hmem; [by apply IH|].
      apply bool_decide_eq_false in Hmem.
      destruct (any_variation_matches U nc ws); [|by apply IH].
      apply IH; [by apply NoDup_append_new|done|done].
Qed.

Lemma extract_all_towns_facts content g :
  NoDup (extract_all_towns U content g) /\
  extract_all_towns U content g `sublist_of` (fst <$> build_town_lookup g).
Proof.
  unfold extract_all_towns. destruct content as [text|].
  2: { split; [constructor|apply sublist_nil_l]. }
  destruct (negb (truthy text)).
  { split; [constructor|apply sublist_nil_l]. }
  destruct (collect_towns_extends (normalize_apostrophes text)
              (build_town_lookup g) [] (NoDup_nil_2))
    as (extra & -> & Hnd & Hsub).
  by split.
Qed.

Lemma extract_town_in_gazetteer content g t :
  extract_town U content g = Some t -> t ∈ g.
Proof.
  unfold extract_town. destruct content as [text|]; [|done].
  destruct (negb (truthy text)); [done|].
  destruct (list_sort _ _ _) as [|[o name] rest] eqn:E; [done|].
  intros [= ->].
  assert ((o, t) ∈ town_matches U (normalize_apostrophes text)
                     (build_town_lookup g) []) as Hin.
  { rewrite <- (list_sort_perm fst false), E. apply elem_of_cons. by left. }
  apply town_matches_names in Hin as [Hin%elem_of_nil|Hin]; [done|].
  by rewrite build_town_lookup_names in Hin.
Qed.

(** What [extract_town] returns: a town whose recorded offset is the
    smallest of the recorded offsets. *)
Lemma extract_town_earliest_recorded text g t :
  extract_town U (Some text) g = Some t ->
  exists o,
    (o, t) ∈ town_matches U (normalize_apostrophes text)
               (build_town_lookup g) [] /\
    forall o' t',
      (o', t') ∈ town_matches U (normalize_apostrophes text)
                   (build_town_lookup g) [] -> (o <= o')%nat.
Proof.
  unfold extract_town. destruct (negb (truthy text)); [done|].
  destruct (list_sort _ _ _) as [|[o name] rest] eqn:E; [done|].
  intros [= ->]. exists o. split.
  - rewrite <- (list_sort_perm fst false), E. apply elem_of_cons. by left.
  - intros o' t' Hin. rewrite <- (list_sort_perm fst false), E in Hin.
    pose proof (list_sort_sorted fst false
                  (town_matches U (normalize_apostrophes text)
                     (build_town_lookup g) [])) as Hs.
    rewrite E in Hs. exact (sorted_head fst false _ _ _ Hs Hin).
Qed.

Lemma extract_all_towns_in_gazetteer content g t :
  t ∈ extract_all_towns U content g -> t ∈ g.
Proof.
  intros Hin. destruct (extract_all_towns_facts content g) as [_ Hsub].
  rewrite <- (build_town_lookup_names g). by eapply elem_of_sublist.
Qed.

(** ** The road and town extractor *)

Lemma first_return_some {A B} (f : A -> option B) l r :
  first_return f l = Some r -> exists x, x ∈ l /\ f x = Some r.
Proof.
  induction l as [|x l IH]; simpl; [done|].
  destruct (f x) as [r'|] eqn:E.
  - intros [= ->]. exists x. split; [apply elem_of_cons; by left|done].
  - intros (y & Hy & Hf)%IH. exists y. split; [apply elem_of_cons; by right|done].
Qed.

(** Whatever pattern of the cascade matches, the town returned is the
    official town of the candidate. *)
Lemma cascade_town nc town_var official_town r :
  cascade U nc (town_var, official_town) = Some r ->
  snd r = Some official_town.
Proof.
  unfold cascade.
  destruct (first_return _ maltese_prefixes) as [r1|] eqn:E1.
  { intros [= <-]. apply first_return_some in E1 as (p & _ & Hp).
    destruct (re_search U false _ nc); [|done]. by injection Hp as <-. }
  destruct (first_return _ english_suffixes) as [r2|] eqn:E2.
  { intros [= <-]. apply first_return_some in E2 as (p & _ & Hp).
    destruct (re_search U true _ nc); [|done]. by injection Hp as <-. }
  destruct (re_search U true _ nc); [|done]. by intros [= <-].
Qed.

Lemma all_town_variations_names lookup town_var official_town :
  (town_var, official_town) ∈ all_town_variations lookup ->
  official_town ∈ fst <$> lookup.
Proof.
  unfold all_town_variations.
  rewrite (list_sort_perm (fun x : str * str => length (fst x)) true).
  intros Hin%list_elem_of_In. apply in_flat_map in Hin as ([name vs] & Hl & Hv).
  apply in_map_iff in Hv as (v & [= _ ->] & _).
  apply list_elem_of_In in Hl.
  apply list_elem_of_fmap. by exists (official_town, vs).
Qed.

Lemma extract_road_and_town_in_gazetteer content g t :
  snd (extract_road_and_town U content g) = Some t -> t ∈ g.
Proof.
  unfold extract_road_and_town. destruct content as [text|]; [|done].
  destruct (negb (truthy text)) eqn:Ht; [done|].
  destruct (first_return (cascade U _) _) as [r|] eqn:E.
  - apply first_return_some in E as ([town_var official] & Hin & Hc).
    apply cascade_town in Hc. rewrite Hc. intros [= <-].
    apply all_town_variations_names in Hin.
    by rewrite build_town_lookup_names in Hin.
  - intros Hs. apply (extract_town_in_gazetteer (Some text)).
    destruct (first_return _ maltese_prefixes); [exact Hs|].
    destruct (first_return _ english_suffixes); exact Hs.
Qed.
End MatcherFacts.

(** C8: the list returned by extract_all_towns has no duplicates, and its
    elements come in the order of the town lookup index (it is a
    subsequence of the index's canonical names).  That order is not the
    order of appearance in the text: Bormla is mentioned before Vittoriosa
    (Il-Birgu) below, and listed after it. *)
Theorem extract_all_towns_nodup_index_order :
  (forall U content g,
     NoDup (extract_all_towns U content g) /\
     extract_all_towns U content g `sublist_of` (fst <$> build_town_lookup g)) /\
  (forall U,
     extract_all_towns U (Some (py "Bormla and Vittoriosa"))
                       [py "Bormla"; py "Il-Birgu"]
     = [py "Il-Birgu"; py "Bormla"]).
Proof.
  split.
  - intros U content g. apply extract_all_towns_facts.
  - intros U. vm_compute. reflexivity.
Qed.

(** C10: every town returned by extract_town or by extract_road_and_town,
    and every element of the list returned by extract_all_towns, is one of
    the canonical names of the gazetteer. *)
Theorem outputs_are_canonical (U : unicode_db) (content : option str)
    (g : list str) :
  (forall t, extract_town U content g = Some t -> t ∈ g) /\
  (forall t, t ∈ extract_all_towns U content g -> t ∈ g) /\
  (forall t, snd (extract_road_and_town U content g) = Some t -> t ∈ g).
Proof.
  split; [|split]; intros t.
  - apply extract_town_in_gazetteer.
  - apply extract_all_towns_in_gazetteer.
  - apply extract_road_and_town_in_gazetteer.
Qed.

Lemma outputs_are_canonical_witness :
  py "L-Imsida" ∈ [py "Sliema"; py "L-Imsida"] /\
  py "L-Imsida" ∈ [py "Sliema"; py "L-Imsida"] /\
  py "L-Imsida" ∈ [py "Sliema"; py "L-Imsida"].
Proof.
  pose proof (outputs_are_canonical latin_db
                (Some (py "Two men were arrested in Msida Road, Msida."))
                [py "Sliema"; py "L-Imsida"]) as (H1 & H2 & H3).
  split; [|split].
  - apply H1. vm_compute. reflexivity.
  - apply H2. vm_compute. apply elem_of_cons. by left.
  - apply H3. vm_compute. reflexivity.
Defined.

(** C3: absent or empty content gives the absent result, for every
    gazetteer: (None, None), None and the empty list are returned as
    ordinary values. *)
Theorem absence_propagation (U : unicode_db) (g : list str) :
  extract_road_and_town U None g = (None, None) /\
  extract_road_and_town U (Some []) g = (None, None) /\
  extract_town U None g = None /\
  extract_town U (Some []) g = None /\
  extract_all_towns U None g = [] /\
  extract_all_towns U (Some []) g = [].
Proof. repeat split. Qed.

(** C2, at the failing input: the town is L-Imsida, as the claim says, but
    the road returned is not the road name Msida Road: no town-anchored
    pattern matches, because the road follows the word on, and the
    fallback pattern takes the four words in front of the suffix along. *)
Theorem msida_road_scenario (U : unicode_db) :
  extract_road_and_town U
    (Some (py "Police are investigating an incident on Msida Road, Msida."))
    [py "L-Imsida"]
  = (Some (py "an incident on Msida Road"), Some (py "L-Imsida")).
Proof. vm_compute. reflexivity. Qed.

(** Whatever the Unicode table, the road returned for the scenario is not
    Msida Road. *)
Lemma msida_road_scenario_not_as_claimed :
  ~ exists U : unicode_db,
      extract_road_and_town U
        (Some (py "Police are investigating an incident on Msida Road, Msida."))
        [py "L-Imsida"]
      = (Some (py "Msida Road"), Some (py "L-Imsida")).
Proof. intros [U H]. vm_compute in H. discriminate H. Qed.

(** The sibling paths return the road name: the town-anchored English
    pattern when the road follows the word in, and the town-anchored
    Maltese pattern after any word. *)
Example msida_road_after_in (U : unicode_db) :
  extract_road_and_town U
    (Some (py "Police are investigating an incident in Msida Road, Msida."))
    [py "L-Imsida"]
  = (Some (py "Msida Road"), Some (py "L-Imsida")).
Proof. vm_compute. reflexivity. Qed.

Example triq_il_kbira_after_on (U : unicode_db) :
  extract_road_and_town U
    (Some (py "Police are investigating an incident on Triq il-Kbira, Msida."))
    [py "L-Imsida"]
  = (Some (py "Triq il-Kbira"), Some (py "L-Imsida")).
Proof. vm_compute. reflexivity. Qed.

(** C1, at the failing input: Vittoriosa, a variant of Il-Birgu, is the
    earliest match in the text (offset 11), before Bormla (offset 38); the
    loop records for Il-Birgu the offset of Birgu (59), the first of its
    variants in list order that matches, and extract_town returns Bormla,
    where the specification's reading returns Il-Birgu. *)
Theorem extract_town_not_offset_minimal (U : unicode_db) :
  let content :=
    py "A man from Vittoriosa was arrested in Bormla after fleeing Birgu." in
  let g := [py "Il-Birgu"; py "Bormla"] in
  variant_matches U (normalize_apostrophes content) (build_town_lookup g)
    = [(59%nat, py "Il-Birgu"); (11%nat, py "Il-Birgu"); (38%nat, py "Bormla")] /\
  town_matches U (normalize_apostrophes content) (build_town_lookup g) []
    = [(59%nat, py "Il-Birgu"); (38%nat, py "Bormla")] /\
  extract_town U (Some content) g = Some (py "Bormla") /\
  extract_town_spec U (Some content) g = Some (py "Il-Birgu").
Proof. repeat split; vm_compute; reflexivity. Qed.

(** ** Further scenarios of the specification *)

Example triq_il_kbira_scenario (U : unicode_db) :
  extract_road_and_town U
    (Some (py "An accident occurred in Triq il-Kbira, Sliema this morning."))
    [py "Sliema"]
  = (Some (py "Triq il-Kbira"), Some (py "Sliema")).
Proof. vm_compute. reflexivity. Qed.

Example no_location_scenario (U : unicode_db) :
  extract_road_and_town U (Some (py "No location mentioned here."))
    [py "Sliema"; py "L-Imsida"; py "San Ġiljan"]
  = (None, None).
Proof. vm_compute. reflexivity. Qed.

(** * Further properties *)

(** ** The normalizers, character by character *)

Lemma subst_char_key m c :
  Forall (fun v => v ∉ fst <$> m) (snd <$> m) ->
  c ∈ fst <$> m -> subst_char m c ∈ snd <$> m.
Proof.
  revert c. induction m as [|[a b] m IH]; intros c H Hc.
  { by apply elem_of_nil in Hc. }
  simpl in *. apply Forall_cons in H as [Hb Hm].
  apply not_elem_of_cons in Hb as [_ Hb].
  destruct (N.eqb_spec c a) as [->|Hne].
  - rewrite subst_char_fresh by done. apply elem_of_cons. by left.
  - apply elem_of_cons in Hc as [?|Hc]; [done|].
    apply elem_of_cons. right. apply IH; [|done].
    eapply Forall_impl; [exact Hm|]. intros v Hv.
    by apply not_elem_of_cons in Hv as [_ Hv].
Qed.

Lemma subst_char_not_key m c :
  Forall (fun v => v ∉ fst <$> m) (snd <$> m) ->
  subst_char m c ∉ fst <$> m.
Proof.
  intros H. destruct (decide (c ∈ fst <$> m)) as [Hc|Hc].
  - pose proof (subst_char_key m c H Hc) as Hv.
    rewrite Forall_forall in H. by apply H.
  - by rewrite subst_char_fresh.
Qed.

Lemma to_ascii_idem text : to_ascii (to_ascii text) = to_ascii text.
Proof.
  rewrite !to_ascii_map, map_map. apply map_ext. intros c.
  apply subst_char_idem, ascii_mapping_targets_fresh.
Qed.

Lemma normalize_apostrophes_idem text :
  normalize_apostrophes (normalize_apostrophes text) = normalize_apostrophes text.
Proof.
  rewrite !normalize_apostrophes_map, map_map. apply map_ext. intros c.
  apply subst_char_idem, apostrophe_target_fresh.
Qed.

Lemma normalize_apostrophes_length text :
  length (normalize_apostrophes text) = length text.
Proof. by rewrite normalize_apostrophes_map, length_map. Qed.

Lemma normalize_apostrophes_truthy text :
  truthy (normalize_apostrophes text) = truthy text.
Proof. rewrite normalize_apostrophes_map. by destruct text. Qed.

Lemma elem_of_map_inv {A B} (f : A -> B) l y :
  y ∈ map f l -> exists x, y = f x /\ x ∈ l.
Proof.
  intros Hin%list_elem_of_In. apply in_map_iff in Hin as (x & <- & Hx).
  exists x. split; [done|]. by apply list_elem_of_In.
Qed.

Lemma map_fixed {A} (f : A -> A) l :
  (forall x, x ∈ l -> f x = x) -> map f l = l.
Proof.
  induction l as [|x l IH]; intros H; simpl; [done|].
  rewrite H by (apply elem_of_cons; by left).
  rewrite IH; [done|]. intros y Hy. apply H. apply elem_of_cons. by right.
Qed.

(** X1: to_ascii keeps the length of the text, and its result holds none
    of the twenty characters that are keys of the mapping.  Nothing is said
    of the characters the mapping does not list (an e with acute accent, a
    double curly quote). *)
Theorem to_ascii_length_clean (text : str) :
  length (to_ascii text) = length text /\
  forall c, c ∈ to_ascii text -> c ∉ fst <$> create_ascii_mapping.
Proof.
  rewrite to_ascii_map. split; [apply length_map|].
  intros c (c0 & -> & _)%elem_of_map_inv.
  apply subst_char_not_key, ascii_mapping_targets_fresh.
Qed.

(** X2: normalize_apostrophes keeps the length of the text (offsets in
    the normalized content are offsets in the content), and its result
    holds none of the five apostrophe variants. *)
Theorem normalize_apostrophes_length_clean (text : str) :
  length (normalize_apostrophes text) = length text /\
  forall c, c ∈ normalize_apostrophes text -> c ∉ apostrophes.
Proof.
  split; [apply normalize_apostrophes_length|].
  rewrite normalize_apostrophes_map.
  intros c (c0 & -> & _)%elem_of_map_inv.
  apply (subst_char_not_key (map (fun a => (a, 0x27)) apostrophes)),
    apostrophe_target_fresh.
Qed.

(** X3: a text without characters of the mapping is left as it is by
    to_ascii, and a text without apostrophe variants is left as it is
    by normalize_apostrophes. *)
Theorem normalizers_fixed_points (text : str) :
  ((forall c, c ∈ text -> c ∉ fst <$> create_ascii_mapping) ->
   to_ascii text = text) /\
  ((forall c, c ∈ text -> c ∉ apostrophes) ->
   normalize_apostrophes text = text).
Proof.
  split; intros H.
  - rewrite to_ascii_map. apply map_fixed. intros c Hc.
    apply subst_char_fresh. by apply H.
  - rewrite normalize_apostrophes_map. apply map_fixed. intros c Hc.
    apply subst_char_fresh. by apply H.
Qed.

Lemma normalizers_fixed_points_witness :
  to_ascii (py "Sliema") = py "Sliema" /\
  normalize_apostrophes (py "Sliema") = py "Sliema".
Proof.
  pose proof (normalizers_fixed_points (py "Sliema")) as [H1 H2].
  split.
  - apply H1. intros c Hc. apply (bool_decide_unpack _).
    revert c Hc. apply Forall_forall. apply (bool_decide_unpack _).
    vm_compute. exact I.
  - apply H2. intros c Hc. apply (bool_decide_unpack _).
    revert c Hc. apply Forall_forall. apply (bool_decide_unpack _).
    vm_compute. exact I.
Defined.

(** The characters either normalizer touches. *)
Lemma normalizers_commute_char c :
  subst_char create_ascii_mapping
    (subst_char (map (fun a => (a, 0x27)) apostrophes) c)
  = subst_char (map (fun a => (a, 0x27)) apostrophes)
      (subst_char create_ascii_mapping c).
Proof.
  set (A := create_ascii_mapping).
  set (B := map (fun a => (a, 0x27)) apostrophes).
  destruct (decide (c ∈ (fst <$> A) ++ (fst <$> B))) as [Hc|Hc].
  - revert c Hc. apply Forall_forall. apply (bool_decide_unpack _).
    vm_compute. exact I.
  - apply not_elem_of_app in Hc as [HA HB].
    by rewrite (subst_char_fresh B c), (subst_char_fresh A c),
      (subst_char_fresh B c).
Qed.

(** X4: the two normalizers commute: folding to ASCII and normalizing the
    apostrophes give the same text in either order. *)
Theorem normalizers_commute (text : str) :
  to_ascii (normalize_apostrophes text) = normalize_apostrophes (to_ascii text).
Proof.
  rewrite !to_ascii_map, !normalize_apostrophes_map, !map_map.
  apply map_ext. intros c. apply normalizers_commute_char.
Qed.

(** ** The variant generator and its ASCII folds *)

(** The loop of [ascii_loop] run over a part [l] of the variations [vs],
    from the folds [acc] collected so far; [fold] stands for [to_ascii]. *)
Lemma fold_loop_inv (fold : str -> str) (vs l acc : list str) :
  let step := fun (ascii_variations : list str) (var : str) =>
    let ascii_var := fold var in
    if bool_decide (ascii_var ≠ var)
       && negb (bool_decide (ascii_var ∈ vs))
       && negb (bool_decide (ascii_var ∈ ascii_variations))
    then ascii_variations ++ [ascii_var]
    else ascii_variations in
  NoDup acc -> (forall x, x ∈ acc -> x ∉ vs) ->
  let r := fold_left step l acc in
  NoDup r /\
  (forall x, x ∈ acc -> x ∈ r) /\
  (forall x, x ∈ r -> x ∉ vs) /\
  (forall x, x ∈ r -> x ∈ acc \/ exists v, v ∈ l /\ x = fold v /\ x <> v) /\
  (forall v, v ∈ l -> fold v = v \/ fold v ∈ vs \/ fold v ∈ r).
Proof.
  intros step. revert acc.
  induction l as [|v l IH]; intros acc Hnd Hdis; simpl.
  - repeat split; try done.
    + intros x Hx. by left.
    + by intros v ?%elem_of_nil.
  - set (acc' := step acc v).
    assert (NoDup acc' /\ (forall x, x ∈ acc' -> x ∉ vs) /\
            (forall x, x ∈ acc -> x ∈ acc') /\
            (forall x, x ∈ acc' -> x ∈ acc \/ (x = fold v /\ x <> v)) /\
            (fold v = v \/ fold v ∈ vs \/ fold v ∈ acc'))
      as (Hnd' & Hdis' & Hsub & Hprov & Hv).
    { unfold acc', step. simpl.
      destruct (bool_decide (fold v ≠ v)) eqn:E1; simpl.
      2: { apply bool_decide_eq_false in E1.
           repeat split; try done; [by left|left; by apply dec_stable]. }
      apply bool_decide_eq_true in E1.
      destruct (bool_decide (fold v ∈ vs)) eqn:E2; simpl.
      { apply bool_decide_eq_true in E2.
        repeat split; try done; [by left|right; by left]. }
      apply bool_decide_eq_false in E2.
      destruct (bool_decide (fold v ∈ acc)) eqn:E3; simpl.
      { apply bool_decide_eq_true in E3.
        repeat split; try done; [by left|right; by right]. }
      apply bool_decide_eq_false in E3.
      repeat split.
      - apply NoDup_app. repeat split; [done| |apply NoDup_singleton].
        by intros x Hx ->%list_elem_of_singleton.
      - intros x [Hx|Hx%list_elem_of_singleton]%elem_of_app;
          [by apply Hdis|by subst x].
      - intros x Hx. apply elem_of_app. by left.
      - intros x [Hx|Hx%list_elem_of_singleton]%elem_of_app;
          [by left|right; by subst x].
      - right. right. apply elem_of_app. right. by apply list_elem_of_singleton. }
    destruct (IH acc' Hnd' Hdis') as (R1 & R2 & R3 & R4 & R5).
    repeat split; try done.
    + intros x Hx. by apply R2, Hsub.
    + intros x Hx. destruct (R4 x Hx) as [Ha|(w & Hw & E & Hne)].
      * destruct (Hprov x Ha) as [?|[-> ?]]; [by left|].
        right. exists v. split; [apply elem_of_cons; by left|done].
      * right. exists w. split; [apply elem_of_cons; by right|done].
    + intros w [->|Hw]%elem_of_cons.
      * destruct Hv as [?|[?|Hv]]; [by left|right; by left|].
        right. right. by apply R2.
      * by apply R5.
Qed.

Lemma ascii_loop_facts (vs : list str) :
  NoDup (ascii_loop vs) /\
  (forall x, x ∈ ascii_loop vs -> x ∉ vs) /\
  (forall x, x ∈ ascii_loop vs -> exists v, v ∈ vs /\ x = to_ascii v /\ x <> v) /\
  (forall v, v ∈ vs -> to_ascii v = v \/ to_ascii v ∈ vs \/ to_ascii v ∈ ascii_loop vs).
Proof.
  destruct (fold_loop_inv to_ascii vs vs [] (NoDup_nil_2))
    as (R1 & _ & R3 & R4 & R5).
  { by intros x ?%elem_of_nil. }
  repeat split; try done.
  intros x Hx. destruct (R4 x Hx) as [?%elem_of_nil|?]; done.
Qed.

(** The variations before the ASCII folds are added. *)
Lemma all_variations_split town :
  all_variations town =
  (create_town_variations town ++ default [] (get_english_aliases !! town))
  ++ ascii_loop (create_town_variations town
                 ++ default [] (get_english_aliases !! town)).
Proof.
  unfold all_variations. destruct (get_english_aliases !! town); simpl; [done|].
  by rewrite app_nil_r.
Qed.

(** X5: the variant set of a town is closed under ASCII folding: the
    to_ascii form of every variant is a variant too. *)
Theorem all_variations_ascii_closed (town v : str) :
  v ∈ all_variations town -> to_ascii v ∈ all_variations town.
Proof.
  rewrite all_variations_split.
  set (vs := create_town_variations town ++ _).
  destruct (ascii_loop_facts vs) as (_ & _ & Hprov & Hall).
  intros [Hv|Hv]%elem_of_app; apply elem_of_app.
  - destruct (Hall v Hv) as [->|[?|?]]; [by left|by left|by right].
  - right. destruct (Hprov v Hv) as (w & _ & -> & _). by rewrite to_ascii_idem.
Qed.

Lemma all_variations_ascii_closed_witness :
  py "L-Imġarr" ∈ all_variations (py "L-Imġarr") /\
  to_ascii (py "L-Imġarr") ∈ all_variations (py "L-Imġarr").
Proof.
  assert (py "L-Imġarr" ∈ all_variations (py "L-Imġarr")) as H.
  { apply (bool_decide_unpack _). vm_compute. exact I. }
  split; [exact H|].
  exact (all_variations_ascii_closed (py "L-Imġarr") (py "L-Imġarr") H).
Defined.

(** X6: where the variants of a town come from: each is a variation made
    by create_town_variations, an alias of the town in the catalog, or the
    to_ascii form, different from its source, of one of these; the folds
    are appended once each and only when not already a variation. *)
Theorem all_variations_provenance (town : str) :
  let base := create_town_variations town
              ++ default [] (get_english_aliases !! town) in
  exists folds,
    all_variations town = base ++ folds /\
    NoDup folds /\
    (forall x, x ∈ folds -> x ∉ base) /\
    (forall x, x ∈ folds -> exists v, v ∈ base /\ x = to_ascii v /\ x <> v).
Proof.
  intros base. exists (ascii_loop base).
  destruct (ascii_loop_facts base) as (H1 & H2 & H3 & _).
  split; [apply all_variations_split|done].
Qed.

(** ** Whole-word search *)

Section SearchFacts.
Variable U : unicode_db.

Lemma lit_at_exact (p s : str) :
  lit_at U false p s = true <-> take (length p) s = p.
Proof.
  revert s. induction p as [|a p IH]; intros s; simpl; [done|].
  destruct s as [|c s]; simpl; [done|].
  unfold char_eq. rewrite andb_false_l, orb_false_r, andb_true_iff, IH, N.eqb_eq.
  split; [intros [-> ->]; done|intros [= -> ->]; done].
Qed.

Lemma boundary_in_range s o : boundary U s o = true -> (o <= length s)%nat.
Proof.
  unfold boundary, word_at. intros H.
  destruct (s !! o) as [c|] eqn:Ho.
  { apply lookup_lt_Some in Ho. lia. }
  destruct o as [|j]; [lia|].
  destruct (s !! j) as [c|] eqn:Hj; [|done].
  apply lookup_lt_Some in Hj. lia.
Qed.

(** The town pattern at one offset. *)
Lemma town_pattern_match_at s v o :
  match_at U false s (town_pattern v) o =
  if boundary U s o
     && lit_at U false (normalize_apostrophes v) (drop o s)
     && boundary U s (o + length (normalize_apostrophes v))
  then Some {| m_start := o;
               m_end := (o + length (normalize_apostrophes v))%nat;
               m_group := None |}
  else None.
Proof.
  unfold match_at, town_pattern, cat. cbn [foldr rmatch].
  destruct (boundary U s o); [|done]. simpl.
  destruct (lit_at U false _ _); [|done]. simpl.
  by destruct (boundary U s _).
Qed.

Lemma town_pattern_match_at_iff s v o :
  is_Some (match_at U false s (town_pattern v) o)
  <-> whole_word_at U s (normalize_apostrophes v) o.
Proof.
  rewrite town_pattern_match_at. unfold whole_word_at.
  rewrite <- lit_at_exact.
  destruct (boundary U s o); simpl.
  2: { split; [by intros [? ?]|by intros [? _]]. }
  destruct (lit_at U false _ _); simpl.
  2: { split; [by intros [? ?]|by intros (_ & ? & _)]. }
  destruct (boundary U s _); simpl.
  - split; [done|by eexists].
  - split; [by intros [? ?]|by intros (_ & _ & ?)].
Qed.

(** [search_from] returns the match at the first offset that has one. *)
Lemma search_from_some ic s r fuel i m :
  search_from U ic s r fuel i = Some m ->
  exists j, (i <= j <= i + fuel)%nat /\ match_at U ic s r j = Some m /\
            forall j', (i <= j' < j)%nat -> match_at U ic s r j' = None.
Proof.
  revert i. induction fuel as [|fuel IH]; intros i; simpl.
  - destruct (match_at U ic s r i) eqn:E; [|done]. intros [= ->].
    exists i. repeat split; [lia|lia|done|intros; lia].
  - destruct (match_at U ic s r i) eqn:E.
    + intros [= ->]. exists i. repeat split; [lia|lia|done|intros; lia].
    + intros (j & Hj & Hm & Hmin)%IH. exists j. repeat split; [lia|lia|done|].
      intros j' Hj'. destruct (decide (j' = i)) as [->|]; [done|].
      apply Hmin. lia.
Qed.

Lemma search_from_complete ic s r fuel i j :
  (i <= j <= i + fuel)%nat -> is_Some (match_at U ic s r j) ->
  is_Some (search_from U ic s r fuel i).
Proof.
  revert i. induction fuel as [|fuel IH]; intros i Hj Hm; simpl.
  - replace j with i in Hm by lia. by destruct Hm as [m ->].
  - destruct (match_at U ic s r i) eqn:E; [done|].
    apply IH; [|done]. destruct (decide (j = i)) as [->|]; [|lia].
    rewrite E in Hm. by destruct Hm.
Qed.

(** The search for a variation finds its leftmost whole-word occurrence. *)
Lemma town_search_some s v m :
  re_search U false (town_pattern v) s = Some m ->
  whole_word_at U s (normalize_apostrophes v) (m_start m) /\
  forall o, (o < m_start m)%nat ->
    ~ whole_word_at U s (normalize_apostrophes v) o.
Proof.
  unfold re_search. intros (j & Hj & Hm & Hmin)%search_from_some.
  assert (m_start m = j) as ->.
  { rewrite town_pattern_match_at in Hm.
    destruct (_ && _); [|done]. by injection Hm as <-. }
  split.
  - apply town_pattern_match_at_iff. by eexists.
  - intros o Ho Hw%town_pattern_match_at_iff.
    rewrite Hmin in Hw by lia. by destruct Hw.
Qed.

Lemma town_search_complete s v o :
  whole_word_at U s (normalize_apostrophes v) o ->
  is_Some (re_search U false (town_pattern v) s).
Proof.
  intros Hw. unfold re_search. apply (search_from_complete _ _ _ _ _ o).
  - destruct Hw as (Hb & _). apply boundary_in_range in Hb. lia.
  - by apply town_pattern_match_at_iff.
Qed.

Lemma any_variation_matches_iff s vs :
  any_variation_matches U s vs = true <->
  exists v o, v ∈ vs /\ whole_word_at U s (normalize_apostrophes v) o.
Proof.
  unfold any_variation_matches. rewrite existsb_exists. split.
  - intros (v & Hv%list_elem_of_In & Hm%bool_decide_eq_true).
    destruct Hm as [m Hm]. exists v, (m_start m). split; [done|].
    by apply town_search_some.
  - intros (v & o & Hv & Hw). exists v. split; [by apply list_elem_of_In|].
    apply bool_decide_eq_true. by eapply town_search_complete.
Qed.

(** The offset recorded for a town: that of the leftmost occurrence of the
    first variation, in list order, that occurs at all. *)
Lemma first_variation_match_some s vs o :
  first_variation_match U s vs = Some o ->
  exists before v after,
    vs = before ++ v :: after /\
    whole_word_at U s (normalize_apostrophes v) o /\
    (forall o', (o' < o)%nat -> ~ whole_word_at U s (normalize_apostrophes v) o') /\
    (forall w o', w ∈ before -> ~ whole_word_at U s (normalize_apostrophes w) o').
Proof.
  induction vs as [|v vs IH]; simpl; [done|].
  destruct (re_search U false (town_pattern v) s) as [m|] eqn:E.
  - intros [= <-]. exists [], v, vs. apply town_search_some in E as [H1 H2].
    split; [done|]. split; [done|]. split; [done|].
    by intros w o' ?%elem_of_nil.
  - intros (before & w & after & -> & H1 & H2 & H3)%IH.
    exists (v :: before), w, after.
    split; [done|]. split; [done|]. split; [done|].
    intros w' o' [->|Hw']%elem_of_cons; [|by apply H3].
    intros Hw%town_search_complete. rewrite E in Hw. by destruct Hw.
Qed.

Lemma first_variation_match_is_some s vs :
  is_Some (first_variation_match U s vs) <-> any_variation_matches U s vs = true.
Proof.
  unfold any_variation_matches.
  induction vs as [|v vs IH]; simpl.
  - split; [by intros [? ?]|done].
  - destruct (re_search U false (town_pattern v) s) as [m|] eqn:E.
    + rewrite bool_decide_eq_true_2 by (by eexists). by split; [|eexists].
    + rewrite bool_decide_eq_false_2 by (by intros [? ?]). by rewrite IH.
Qed.
End SearchFacts.

(** ** The town matcher, by occurrences *)

Lemma build_town_lookup_has_entry g t :
  t ∈ g -> (t, all_variations t) ∈ build_town_lookup g.
Proof.
  intros Hin. rewrite build_town_lookup_perm.
  apply list_elem_of_In, in_map_iff. exists t. split; [done|].
  by apply list_elem_of_In.
Qed.

Section OccurrenceFacts.
Variable U : unicode_db.

Lemma collect_towns_sound nc lookup found t :
  t ∈ collect_towns U nc lookup found ->
  t ∈ found \/
  exists vs, (t, vs) ∈ lookup /\ any_variation_matches U nc vs = true.
Proof.
  revert found. induction lookup as [|[name vs] lookup IH]; intros found; simpl.
  - by left.
  - destruct (bool_decide (name ∈ found)).
    { intros [?|(ws & Hin & Hm)]%IH; [by left|].
      right. exists ws. split; [apply elem_of_cons; by right|done]. }
    destruct (any_variation_matches U nc vs) eqn:E.
    + intros [[?|Hn%list_elem_of_singleton]%elem_of_app|(ws & Hin & Hm)]%IH.
      * by left.
      * subst t. right. exists vs. split; [apply elem_of_cons; by left|done].
      * right. exists ws. split; [apply elem_of_cons; by right|done].
    + intros [?|(ws & Hin & Hm)]%IH; [by left|].
      right. exists ws. split; [apply elem_of_cons; by right|done].
Qed.

Lemma town_matches_sound nc lookup matches (o : nat) (t : str) :
  (o, t) ∈ town_matches U nc lookup matches ->
  (o, t) ∈ matches \/
  exists vs, (t, vs) ∈ lookup /\ first_variation_match U nc vs = Some o.
Proof.
  revert matches. induction lookup as [|[name vs] lookup IH]; intros matches.
  - simpl. by left.
  - simpl. destruct (first_variation_match U nc vs) as [start|] eqn:E.
    + intros [[Hin|Hin%list_elem_of_singleton]%elem_of_app|(ws & Hin & Hm)]%IH.
      * by left.
      * injection Hin as -> ->. right. exists vs.
        split; [apply elem_of_cons; by left|done].
      * right. exists ws. split; [apply elem_of_cons; by right|done].
    + intros [Hin|(ws & Hin & Hm)]%IH; [by left|].
      right. exists ws. split; [apply elem_of_cons; by right|done].
Qed.

Lemma town_matches_keeps nc lookup matches m :
  m ∈ matches -> m ∈ town_matches U nc lookup matches.
Proof.
  revert matches. induction lookup as [|[name vs] lookup IH]; intros matches Hm.
  - done.
  - simpl. destruct (first_variation_match U nc vs); apply IH; [|done].
    apply elem_of_app. by left.
Qed.

Lemma town_matches_complete nc lookup matches t vs o :
  (t, vs) ∈ lookup -> first_variation_match U nc vs = Some o ->
  (o, t) ∈ town_matches U nc lookup matches.
Proof.
  revert matches. induction lookup as [|[name ws] lookup IH]; intros matches.
  - by intros ?%elem_of_nil.
  - intros [[= <- <-]|Hin]%elem_of_cons Hm; simpl.
    + rewrite Hm. apply town_matches_keeps, elem_of_app. right.
      by apply list_elem_of_singleton.
    + destruct (first_variation_match U nc ws); by apply IH.
Qed.

Lemma extract_all_towns_elem text g t :
  t ∈ extract_all_towns U (Some text) g <->
  text <> [] /\ t ∈ g /\
  any_variation_matches U (normalize_apostrophes text) (all_variations t) = true.
Proof.
  unfold extract_all_towns. destruct text as [|c text]; cbn [truthy negb].
  { split; [by intros ?%elem_of_nil|by intros [? _]]. }
  split.
  - intros [?%elem_of_nil|(vs & [Hin ->]%build_town_lookup_entry & Hm)]%collect_towns_sound;
      done.
  - intros (_ & Hin & Hm).
    eapply collect_towns_complete; [apply NoDup_nil_2| |exact Hm].
    by apply build_town_lookup_has_entry.
Qed.
Lemma extract_town_in_all content g t :
  extract_town U content g = Some t -> t ∈ extract_all_towns U content g.
Proof.
  destruct content as [text|]; [|done].
  intros Ht. apply extract_all_towns_elem.
  unfold extract_town in Ht. destruct text as [|c text]; [done|].
  cbn [truthy negb] in Ht. split; [done|].
  destruct (list_sort _ _ _) as [|[o name] rest] eqn:E; [done|].
  injection Ht as ->.
  assert ((o, t) ∈ town_matches U (normalize_apostrophes (c :: text))
                     (build_town_lookup g) []) as Hm.
  { rewrite <- (list_sort_perm fst false), E. apply elem_of_cons. by left. }
  apply town_matches_sound in Hm
    as [?%elem_of_nil|(vs & [Hg ->]%build_town_lookup_entry & Hf)]; [done|].
  split; [done|]. apply first_variation_match_is_some. by eexists.
Qed.
End OccurrenceFacts.

(** X7: which towns extract_all_towns returns: for non-empty content,
    exactly the towns of the gazetteer one of whose variants
    (apostrophe-normalized) stands as a whole word somewhere in the
    apostrophe-normalized content. *)
Theorem extract_all_towns_occurrences (U : unicode_db) (text : str)
    (g : list str) (t : str) :
  t ∈ extract_all_towns U (Some text) g <->
  text <> [] /\ t ∈ g /\
  exists v o, v ∈ all_variations t /\
    whole_word_at U (normalize_apostrophes text) (normalize_apostrophes v) o.
Proof.
  rewrite extract_all_towns_elem. by rewrite any_variation_matches_iff.
Qed.

(** X8: the order of the gazetteer rows does not change which towns
    extract_all_towns returns: for a reordered gazetteer the result is a
    reordering of the result. *)
Theorem extract_all_towns_gazetteer_order (U : unicode_db)
    (content : option str) (g g' : list str) :
  g ≡ₚ g' ->
  extract_all_towns U content g ≡ₚ extract_all_towns U content g'.
Proof.
  intros Hp. destruct content as [text|]; [|done].
  apply NoDup_Permutation; try apply extract_all_towns_facts.
  intros t. rewrite !extract_all_towns_elem. by rewrite Hp.
Qed.

Lemma extract_all_towns_gazetteer_order_witness :
  [py "Bormla"; py "Sliema"] ≡ₚ [py "Sliema"; py "Bormla"] /\
  extract_all_towns latin_db (Some (py "From Sliema to Bormla."))
    [py "Bormla"; py "Sliema"]
  ≡ₚ extract_all_towns latin_db (Some (py "From Sliema to Bormla."))
    [py "Sliema"; py "Bormla"].
Proof.
  assert ([py "Bormla"; py "Sliema"] ≡ₚ [py "Sliema"; py "Bormla"]) as Hp
    by apply Permutation_swap.
  split; [exact Hp|].
  exact (extract_all_towns_gazetteer_order latin_db _ _ _ Hp).
Defined.

(** X9: extract_town and extract_all_towns agree on whether a town is
    mentioned: the town extract_town returns is in the list of
    extract_all_towns, and extract_town returns nothing exactly when that
    list is empty. *)
Theorem extract_town_among_all_towns (U : unicode_db) (content : option str)
    (g : list str) :
  (forall t, extract_town U content g = Some t ->
             t ∈ extract_all_towns U content g) /\
  (extract_town U content g = None <-> extract_all_towns U content g = []).
Proof.
  pose proof (extract_town_in_all U content g) as Hin.
  split; [exact Hin|]. split.
  - intros Hn. apply elem_of_nil_inv. intros t Ht.
    destruct content as [text|]; [|by apply elem_of_nil in Ht].
    apply extract_all_towns_elem in Ht as (Hne & Hg & Hm).
    apply first_variation_match_is_some in Hm as [o Ho].
    pose proof (town_matches_complete U (normalize_apostrophes text) _ []
                  _ _ _ (build_town_lookup_has_entry g t Hg) Ho) as Hin'.
    unfold extract_town in Hn. destruct text as [|c text]; [done|].
    cbn [truthy negb] in Hn.
    destruct (list_sort _ _ _) as [|[o' name] rest] eqn:E; [|done].
    rewrite <- (list_sort_perm fst false), E in Hin'.
    by apply elem_of_nil in Hin'.
  - intros He. destruct (extract_town U content g) as [t|] eqn:Ht; [|done].
    specialize (Hin t eq_refl). rewrite He in Hin. by apply elem_of_nil in Hin.
Qed.

Lemma extract_town_among_all_towns_witness :
  extract_town latin_db (Some (py "From Sliema to Bormla."))
    [py "Bormla"; py "Sliema"] = Some (py "Sliema") /\
  py "Sliema" ∈ extract_all_towns latin_db (Some (py "From Sliema to Bormla."))
                  [py "Bormla"; py "Sliema"].
Proof.
  assert (extract_town latin_db (Some (py "From Sliema to Bormla."))
            [py "Bormla"; py "Sliema"] = Some (py "Sliema")) as H
    by (vm_compute; reflexivity).
  split; [exact H|].
  exact (proj1 (extract_town_among_all_towns latin_db _ _) _ H).
Defined.

(** X10: which town extract_town returns.  Every town of the index with
    an occurring variant is recorded once, at the offset of the leftmost
    occurrence of its first variant, in list order, that occurs.  The town
    returned has the smallest recorded offset, and is the first recorded
    town with that offset; one of its variants stands at that offset as a
    whole word. *)
Theorem extract_town_first_minimal (U : unicode_db) (text : str)
    (g : list str) (t : str) :
  extract_town U (Some text) g = Some t ->
  let nc := normalize_apostrophes text in
  let matches := town_matches U nc (build_town_lookup g) [] in
  exists o,
    head (filter (fun m : nat * str => fst m = o) matches) = Some (o, t) /\
    (forall o' t', (o', t') ∈ matches -> (o <= o')%nat) /\
    first_variation_match U nc (all_variations t) = Some o /\
    exists v, v ∈ all_variations t /\
              whole_word_at U nc (normalize_apostrophes v) o.
Proof.
  intros Ht nc matches. unfold extract_town in Ht.
  destruct (negb (truthy text)); [done|]. fold nc matches in Ht.
  destruct (list_sort fst false matches) as [|[o name] rest] eqn:E; [done|].
  injection Ht as ->. exists o.
  assert ((o, t) ∈ matches) as Hin.
  { rewrite <- (list_sort_perm fst false), E. apply elem_of_cons. by left. }
  split; [|split].
  - rewrite <- (list_sort_stable fst false o matches), E.
    by rewrite filter_cons_True.
  - intros o' t' Hin'. rewrite <- (list_sort_perm fst false), E in Hin'.
    pose proof (list_sort_sorted fst false matches) as Hs. rewrite E in Hs.
    exact (sorted_head fst false _ _ _ Hs Hin').
  - apply town_matches_sound in Hin
      as [?%elem_of_nil|(vs & [Hg ->]%build_town_lookup_entry & Hf)]; [done|].
    split; [done|].
    apply first_variation_match_some in Hf as (before & v & after & E' & Hw & _).
    exists v. split; [|done]. rewrite E'. apply elem_of_app. right.
    apply elem_of_cons. by left.
Qed.

Lemma extract_town_first_minimal_witness :
  exists o,
    head (filter (fun m : nat * str => fst m = o)
            (town_matches latin_db
               (normalize_apostrophes (py "From Sliema to Bormla."))
               (build_town_lookup [py "Bormla"; py "Sliema"]) []))
      = Some (o, py "Sliema").
Proof.
  destruct (extract_town_first_minimal latin_db (py "From Sliema to Bormla.")
              [py "Bormla"; py "Sliema"] (py "Sliema"))
    as (o & H & _).
  - vm_compute. reflexivity.
  - by exists o.
Defined.

(** X11: curly quotes, backticks, acute accents and primes in the content
    make no difference: the three extraction functions return the same on
    the content and on its apostrophe-normalized form. *)
Theorem extraction_ignores_apostrophe_style (U : unicode_db) (text : str)
    (g : list str) :
  extract_town U (Some (normalize_apostrophes text)) g
    = extract_town U (Some text) g /\
  extract_all_towns U (Some (normalize_apostrophes text)) g
    = extract_all_towns U (Some text) g /\
  extract_road_and_town U (Some (normalize_apostrophes text)) g
    = extract_road_and_town U (Some text) g.
Proof.
  assert (extract_town U (Some (normalize_apostrophes text)) g
          = extract_town U (Some text) g) as Ht.
  { unfold extract_town.
    by rewrite normalize_apostrophes_truthy, normalize_apostrophes_idem. }
  split; [exact Ht|]. split.
  - unfold extract_all_towns.
    by rewrite normalize_apostrophes_truthy, normalize_apostrophes_idem.
  - unfold extract_road_and_town.
    by rewrite normalize_apostrophes_truthy, normalize_apostrophes_idem, Ht.
Qed.

Section RoadFacts.
Variable U : unicode_db.

(** A match of the cascade gives a road and a town. *)
Lemma cascade_both nc cand r :
  cascade U nc cand = Some r ->
  exists road, r = (Some road, Some (snd cand)).
Proof.
  destruct cand as [town_var official_town]. unfold cascade.
  destruct (first_return _ maltese_prefixes) as [r1|] eqn:E1.
  { intros [= <-]. apply first_return_some in E1 as (p & _ & Hp).
    destruct (re_search U false _ nc); [|done]. injection Hp as <-. by eexists. }
  destruct (first_return _ english_suffixes) as [r2|] eqn:E2.
  { intros [= <-]. apply first_return_some in E2 as (p & _ & Hp).
    destruct (re_search U true _ nc); [|done]. injection Hp as <-. by eexists. }
  destruct (re_search U true _ nc); [|done]. intros [= <-]. by eexists.
Qed.
End RoadFacts.

(** X12: how extract_road_and_town relates to extract_town: when it
    returns no road, its town is the town of extract_town, and when it
    returns no town, extract_town returns none either; so it finds a town
    whenever extract_town does. *)
Theorem extract_road_and_town_fallback_town (U : unicode_db)
    (content : option str) (g : list str) :
  (fst (extract_road_and_town U content g) = None ->
   snd (extract_road_and_town U content g) = extract_town U content g) /\
  (snd (extract_road_and_town U content g) = None ->
   extract_town U content g = None).
Proof.
  unfold extract_road_and_town. destruct content as [text|]; [|done].
  destruct (negb (truthy text)) eqn:Hn.
  { unfold extract_town. by rewrite Hn. }
  destruct (first_return (cascade U _) _) as [r|] eqn:E.
  { apply first_return_some in E as (cand & _ & (road & ->)%cascade_both).
    done. }
  destruct (first_return _ maltese_prefixes); [done|].
  by destruct (first_return _ english_suffixes).
Qed.

Lemma extract_road_and_town_fallback_town_witness :
  fst (extract_road_and_town latin_db (Some (py "He lives in Sliema"))
         [py "Sliema"]) = None /\
  snd (extract_road_and_town latin_db (Some (py "He lives in Sliema"))
         [py "Sliema"])
  = extract_town latin_db (Some (py "He lives in Sliema")) [py "Sliema"].
Proof.
  assert (fst (extract_road_and_town latin_db (Some (py "He lives in Sliema"))
                 [py "Sliema"]) = None) as H by (vm_compute; reflexivity).
  split; [exact H|].
  exact (proj1 (extract_road_and_town_fallback_town latin_db
                  (Some (py "He lives in Sliema")) [py "Sliema"]) H).
Defined.

(** X13: the candidates of extract_road_and_town are tried from the
    longest town variation to the shortest: in all_town_variations, of two
    adjacent candidates the earlier variation is at least as long. *)
Theorem all_town_variations_descending (lookup : list (str * list str))
    (i : nat) (c1 c2 : str * str) :
  all_town_variations lookup !! i = Some c1 ->
  all_town_variations lookup !! S i = Some c2 ->
  (length (fst c2) <= length (fst c1))%nat.
Proof.
  intros H1 H2. unfold all_town_variations in H1, H2.
  pose proof (list_sort_sorted (fun x : str * str => length (fst x)) true
    (flat_map (fun '(official_name, variations) =>
       map (fun var => (normalize_apostrophes var, official_name)) variations)
       lookup)) as Hs.
  exact (sorted_adjacent _ true _ i c1 c2 Hs H1 H2).
Qed.

Lemma all_town_variations_descending_witness :
  all_town_variations (build_town_lookup [py "L-Imsida"]) !! 0%nat
    = Some (py "L-Imsida", py "L-Imsida") /\
  all_town_variations (build_town_lookup [py "L-Imsida"]) !! 1%nat
    = Some (py "Imsida", py "L-Imsida") /\
  (length (fst (py "Imsida", py "L-Imsida"))
   <= length (fst (py "L-Imsida", py "L-Imsida")))%nat.
Proof.
  split; [vm_compute; reflexivity|]. split; [vm_compute; reflexivity|].
  apply (all_town_variations_descending (build_town_lookup [py "L-Imsida"]) 0);
    vm_compute; reflexivity.
Defined.

(** ** Word boundaries *)

Section BoundaryFacts.
Variable U : unicode_db.

Lemma occurrence_lookup (s w : str) o j c :
  take (length w) (drop o s) = w -> w !! j = Some c -> s !! (o + j)%nat = Some c.
Proof.
  intros E Hj. rewrite <- E in Hj.
  apply lookup_take_Some in Hj as [Hj _]. by rewrite lookup_drop in Hj.
Qed.

Lemma whole_word_nonword_end s w o c :
  whole_word_at U s w o -> last w = Some c -> is_word U c = false ->
  exists c', s !! (o + length w)%nat = Some c' /\ is_word U c' = true.
Proof.
  intros (_ & E & Hb) Hl Hc.
  rewrite last_lookup in Hl.
  destruct (length w) as [|n] eqn:Hlen; [by destruct w|]. simpl in Hl.
  rewrite <- Hlen in E.
  pose proof (occurrence_lookup s w o n c E Hl) as Hs.
  unfold boundary in Hb. replace (o + S n)%nat with (S (o + n)) in *by lia.
  unfold word_at in Hb at 1. rewrite Hs, Hc in Hb. simpl in Hb.
  unfold word_at in Hb. destruct (s !! S (o + n)) as [c'|]; [|done].
  by exists c'.
Qed.

Lemma no_word_no_boundary s o :
  (forall c, c ∈ s -> is_word U c = false) -> boundary U s o = false.
Proof.
  intros H.
  assert (forall i, word_at U s i = false) as Hw.
  { intros i. unfold word_at. destruct (s !! i) as [c|] eqn:E; [|done].
    apply H. by eapply list_elem_of_lookup_2. }
  unfold boundary. destruct o; by rewrite ?Hw.
Qed.

Lemma normalize_apostrophes_no_word text :
  (forall c, c ∈ text -> is_word U c = false) ->
  forall c, c ∈ normalize_apostrophes text -> is_word U c = false.
Proof.
  intros H c. rewrite normalize_apostrophes_map.
  intros (c0 & -> & Hc0)%elem_of_map_inv.
  destruct (subst_char_cases (map (fun a => (a, 0x27)) apostrophes) c0
              apostrophe_target_fresh) as [->|Hin]; [by apply H|].
  revert Hin. generalize (subst_char (map (fun a => (a, 0x27)) apostrophes) c0).
  intros x Hx. 
  assert (Forall (fun x => x = 0x27) (snd <$> map (fun a : N => (a, 0x27)) apostrophes))
    as HF by (repeat constructor).
  rewrite Forall_forall in HF. by rewrite (HF x Hx).
Qed.
End BoundaryFacts.

(** X14: a variation whose last character is not a word character (the
    canonical name Tal-Pieta' ends in an apostrophe) is only found where a
    word character follows it: not at the end of the content, and not in
    front of a space or a punctuation mark. *)
Theorem town_search_nonword_end (U : unicode_db) (s v : str) (m : match_obj)
    (c : N) :
  last (normalize_apostrophes v) = Some c -> is_word U c = false ->
  re_search U false (town_pattern v) s = Some m ->
  exists c', s !! (m_start m + length v)%nat = Some c' /\ is_word U c' = true.
Proof.
  intros Hl Hc [Hw _]%town_search_some.
  rewrite <- (normalize_apostrophes_length v).
  by eapply whole_word_nonword_end.
Qed.

Lemma town_search_nonword_end_witness :
  exists c', py "in Tal-Pieta's square" !! (3 + length (py "Tal-Pieta'"))%nat
             = Some c' /\ is_word latin_db c' = true.
Proof.
  apply (town_search_nonword_end latin_db (py "in Tal-Pieta's square")
           (py "Tal-Pieta'")
           {| m_start := 3; m_end := 13; m_group := None |} 39);
    vm_compute; reflexivity.
Defined.

(** X15: rows of the gazetteer whose longest variants are equally long
    keep their gazetteer order in the index. *)
Theorem build_town_lookup_stable (g : list str) (k : nat) :
  filter (fun e : str * list str => max_len (snd e) = k) (build_town_lookup g)
  = filter (fun e : str * list str => max_len (snd e) = k)
      (map (fun town => (town, all_variations town)) g).
Proof.
  unfold build_town_lookup.
  apply (list_sort_stable (fun x : str * list str => max_len (snd x)) true).
Qed.

(** X16: a larger gazetteer never loses a town: every town
    extract_all_towns finds with a gazetteer is found with any gazetteer
    that contains it. *)
Theorem extract_all_towns_monotone (U : unicode_db) (content : option str)
    (g g' : list str) (t : str) :
  (forall x, x ∈ g -> x ∈ g') ->
  t ∈ extract_all_towns U content g -> t ∈ extract_all_towns U content g'.
Proof.
  intros Hsub. destruct content as [text|]; [|done].
  rewrite !extract_all_towns_elem. intros (? & ? & ?). auto.
Qed.

Lemma extract_all_towns_monotone_witness :
  py "Sliema" ∈ extract_all_towns latin_db (Some (py "From Sliema to Bormla."))
                  [py "Bormla"; py "Sliema"].
Proof.
  apply (extract_all_towns_monotone latin_db _ [py "Sliema"]).
  - intros x Hx. apply elem_of_cons. by right.
  - vm_compute. apply elem_of_cons. by left.
Defined.

(** X17: content without a word character (only punctuation and white
    space) names no town, whatever the gazetteer: a whole-word match
    needs a word boundary. *)
Theorem no_word_character_no_town (U : unicode_db) (text : str)
    (g : list str) :
  (forall c, c ∈ text -> is_word U c = false) ->
  extract_town U (Some text) g = None /\
  extract_all_towns U (Some text) g = [].
Proof.
  intros H.
  assert (extract_all_towns U (Some text) g = []) as He.
  { apply elem_of_nil_inv. intros t (_ & _ & Hm)%extract_all_towns_elem.
    apply any_variation_matches_iff in Hm as (v & o & _ & Hb & _).
    rewrite no_word_no_boundary in Hb; [done|].
    by apply normalize_apostrophes_no_word. }
  split; [|done].
  destruct (extract_town U (Some text) g) as [t|] eqn:Ht; [|done].
  pose proof (extract_town_in_all U (Some text) g t Ht) as Hin.
  rewrite He in Hin. by apply elem_of_nil in Hin.
Qed.

Lemma no_word_character_no_town_witness :
  extract_town latin_db (Some (py "... !?")) [py "Sliema"] = None /\
  extract_all_towns latin_db (Some (py "... !?")) [py "Sliema"] = [].
Proof.
  apply (no_word_character_no_town latin_db).
  apply Forall_forall. repeat constructor.
Defined.
